(** * Incremental indexing pipeline of [update_memory.py]

    A shallow embedding of the chunker ([chunk_text]), the deterministic
    identifiers, the hash ledger and the per-file synchronisation
    ([delete_file_vectors], [index_file], [index_directory]) together with
    the properties the specification states about them. *)

From Stdlib Require Import ZArith Ascii String PrimFloat.
From Stdlib.Strings Require Import Byte.
From stdpp Require Import base tactics option list numbers strings pretty gmap.

Local Open Scope Z_scope.

(** ** Python strings

    A Python [str] is a sequence of Unicode code points.  File contents and
    chunks are lists of code points; [len] is Python's [len]. *)

Definition str := list N.

Definition len (s : str) : Z := Z.of_nat (length s).

Definition text_of (s : string) : str :=
  map N_of_ascii (list_ascii_of_string s).

Definition NL : N := 10%N.
Definition DOT : N := 46%N.
Definition SPACE : N := 32%N.

(** Index normalisation shared by slices and by the bounds of [str.find]:
    a negative index counts from the end, and everything is clipped to
    [0 .. len]. *)
Definition clamp (n i : Z) : Z :=
  if i <? 0 then Z.max 0 (i + n) else Z.min i n.

(** [text[a:b]] *)
Definition slice (s : str) (a b : Z) : str :=
  let lo := clamp (len s) a in
  let hi := clamp (len s) b in
  take (Z.to_nat (hi - lo)) (drop (Z.to_nat lo) s).

(** [text[a:]] *)
Definition slice_from (s : str) (a : Z) : str :=
  drop (Z.to_nat (clamp (len s) a)) s.

Fixpoint starts_with (sub s : str) : bool :=
  match sub, s with
  | [], _ => true
  | c :: sub', d :: s' => (c =? d)%N && starts_with sub' s'
  | _ :: _, [] => false
  end.

(** Leftmost match among [n] consecutive positions, the first being [i];
    [s] is the text from position [i] on. *)
Fixpoint find_in (sub s : str) (i : Z) (n : nat) {struct n} : Z :=
  match n with
  | O => -1
  | S n' =>
      if starts_with sub s then i
      else match s with
           | [] => -1
           | _ :: s' => find_in sub s' (i + 1) n'
           end
  end.

(** [text.find(sub, a, b)]: the lowest index of a match lying wholly inside
    [text[a:b]], or [-1]. *)
Definition find (s sub : str) (a b : Z) : Z :=
  let lo := clamp (len s) a in
  let hi := clamp (len s) b in
  if hi - lo <? len sub then -1
  else find_in sub (drop (Z.to_nat lo) s) lo (Z.to_nat (hi - lo - len sub + 1)).

(** [str.isspace] on one code point. *)
Definition isspace (c : N) : bool :=
  ((9 <=? c) && (c <=? 13) || (28 <=? c) && (c <=? 32)
   || (c =? 133) || (c =? 160) || (c =? 5760)
   || (8192 <=? c) && (c <=? 8202) || (c =? 8232) || (c =? 8233)
   || (c =? 8239) || (c =? 8287) || (c =? 12288))%N.

Fixpoint lstrip (s : str) : str :=
  match s with
  | c :: s' => if isspace c then lstrip s' else s
  | [] => []
  end.

Definition rstrip (s : str) : str := rev (lstrip (rev s)).

(** [text.strip()] *)
Definition strip (s : str) : str := rstrip (lstrip s).

(** ** The chunker *)

Definition CHUNK_SIZE : Z := 500.
Definition CHUNK_OVERLAP : Z := 100.

(** The [while] loop of [chunk_text].  One unit of [fuel] is one evaluation
    of the loop head; [None] means the fuel ran out before the loop ended. *)
Fixpoint chunk_loop (fuel : nat) (text : str) (char_size char_overlap : Z)
    (start : Z) (chunks : list str) : option (list str) :=
  match fuel with
  | O => None
  | S fuel' =>
      if start <? len text then
        let end_ := start + char_size in
        if end_ >=? len text then
          Some (chunks ++ [slice_from text start])
        else
          let paragraph_break :=
            find text [NL; NL] (end_ - char_overlap) (end_ + char_overlap) in
          if negb (paragraph_break =? -1) then
            chunk_loop fuel' text char_size char_overlap paragraph_break
              (chunks ++ [strip (slice text start paragraph_break)])
          else
            let sentence_break :=
              find text [DOT; SPACE] (end_ - char_overlap) (end_ + char_overlap) in
            if negb (sentence_break =? -1) then
              chunk_loop fuel' text char_size char_overlap (sentence_break + 1)
                (chunks ++ [strip (slice text start (sentence_break + 1))])
            else
              let line_break :=
                find text [NL] (end_ - char_overlap) (end_ + char_overlap) in
              if negb (line_break =? -1) then
                chunk_loop fuel' text char_size char_overlap line_break
                  (chunks ++ [strip (slice text start line_break)])
              else
                chunk_loop fuel' text char_size char_overlap
                  (end_ - char_overlap)
                  (chunks ++ [strip (slice text start end_)])
      else Some chunks
  end.

(** [chunk_text(text, chunk_size, overlap)], with the loop bounded by [fuel]. *)
Definition chunk_text_fuel (fuel : nat) (text : str) (chunk_size overlap : Z)
    : option (list str) :=
  let char_size := chunk_size * 4 in
  let char_overlap := overlap * 4 in
  if len text <=? char_size then Some [text]
  else chunk_loop fuel text char_size char_overlap 0 [].

(** The loop head is evaluated at most [len text + 1] times whenever the
    cursor advances; this is the fuel [chunk_text] runs with. *)
Definition chunk_text (text : str) (chunk_size overlap : Z) : option (list str) :=
  chunk_text_fuel (S (length text)) text chunk_size overlap.

(** *** The same loop, recording cursor positions

    [span_loop] is [chunk_loop] with the bookkeeping the source leaves
    implicit: for every chunk, the interval [[start, stop)] of the text it
    was cut from and which branch of the loop produced it. *)

Inductive cut := AtParagraph | AtSentence | AtLine | HardCut | Remainder | Whole.

Record span := Span { span_start : Z; span_stop : Z; span_cut : cut }.

(** The chunk a span stands for: only the last chunk (and the single chunk
    of a short text) is appended without [strip()]. *)
Definition span_text (text : str) (sp : span) : str :=
  match span_cut sp with
  | Whole => text
  | Remainder => slice_from text (span_start sp)
  | _ => strip (slice text (span_start sp) (span_stop sp))
  end.

Fixpoint span_loop (fuel : nat) (text : str) (char_size char_overlap : Z)
    (start : Z) (spans : list span) : option (list span) :=
  match fuel with
  | O => None
  | S fuel' =>
      if start <? len text then
        let end_ := start + char_size in
        if end_ >=? len text then
          Some (spans ++ [Span start (len text) Remainder])
        else
          let paragraph_break :=
            find text [NL; NL] (end_ - char_overlap) (end_ + char_overlap) in
          if negb (paragraph_break =? -1) then
            span_loop fuel' text char_size char_overlap paragraph_break
              (spans ++ [Span start paragraph_break AtParagraph])
          else
            let sentence_break :=
              find text [DOT; SPACE] (end_ - char_overlap) (end_ + char_overlap) in
            if negb (sentence_break =? -1) then
              span_loop fuel' text char_size char_overlap (sentence_break + 1)
                (spans ++ [Span start (sentence_break + 1) AtSentence])
            else
              let line_break :=
                find text [NL] (end_ - char_overlap) (end_ + char_overlap) in
              if negb (line_break =? -1) then
                span_loop fuel' text char_size char_overlap line_break
                  (spans ++ [Span start line_break AtLine])
              else
                span_loop fuel' text char_size char_overlap
                  (end_ - char_overlap)
                  (spans ++ [Span start end_ HardCut])
      else Some spans
  end.

Definition chunk_spans (text : str) (chunk_size overlap : Z) : option (list span) :=
  let char_size := chunk_size * 4 in
  let char_overlap := overlap * 4 in
  if len text <=? char_size then Some [Span 0 (len text) Whole]
  else span_loop (S (length text)) text char_size char_overlap 0 [].

(** *** What one iteration does, stated without the code

    [occurs text sub j]: [sub] is read in [text] at offset [j]. *)
Definition occurs (text sub : str) (j : Z) : Prop :=
  0 <= j /\ take (length sub) (drop (Z.to_nat j) text) = sub.

(** [p] is the leftmost offset at or after [lo] where [sub] occurs and ends
    at or before [hi]. *)
Definition first_match (text sub : str) (lo hi p : Z) : Prop :=
  lo <= p /\ p + len sub <= hi /\ occurs text sub p /\
  forall j, lo <= j < p -> ~ occurs text sub j.

Definition no_match (text sub : str) (lo hi : Z) : Prop :=
  forall j, lo <= j -> j + len sub <= hi -> ~ occurs text sub j.

(** One pass through the loop body at cursor [start]: the span emitted and
    the next cursor.  The window is [[end - char_overlap, end + char_overlap)]
    around the candidate end [end = start + char_size]. *)
Inductive step (text : str) (char_size char_overlap start : Z) : span -> Z -> Prop :=
  | step_paragraph p :
      first_match text [NL; NL] (start + char_size - char_overlap)
        (start + char_size + char_overlap) p ->
      step text char_size char_overlap start (Span start p AtParagraph) p
  | step_sentence p :
      no_match text [NL; NL] (start + char_size - char_overlap)
        (start + char_size + char_overlap) ->
      first_match text [DOT; SPACE] (start + char_size - char_overlap)
        (start + char_size + char_overlap) p ->
      step text char_size char_overlap start (Span start (p + 1) AtSentence) (p + 1)
  | step_line p :
      no_match text [NL; NL] (start + char_size - char_overlap)
        (start + char_size + char_overlap) ->
      no_match text [DOT; SPACE] (start + char_size - char_overlap)
        (start + char_size + char_overlap) ->
      first_match text [NL] (start + char_size - char_overlap)
        (start + char_size + char_overlap) p ->
      step text char_size char_overlap start (Span start p AtLine) p
  | step_hard :
      no_match text [NL; NL] (start + char_size - char_overlap)
        (start + char_size + char_overlap) ->
      no_match text [DOT; SPACE] (start + char_size - char_overlap)
        (start + char_size + char_overlap) ->
      no_match text [NL] (start + char_size - char_overlap)
        (start + char_size + char_overlap) ->
      step text char_size char_overlap start
        (Span start (start + char_size) HardCut) (start + char_size - char_overlap).

(** A whole run of the loop from cursor [start]: steps while the candidate
    end lies before the end of the text, then the remainder. *)
Inductive run (text : str) (char_size char_overlap : Z) : Z -> list span -> Prop :=
  | run_remainder start :
      0 <= start < len text -> len text <= start + char_size ->
      run text char_size char_overlap start [Span start (len text) Remainder]
  | run_step start sp next rest :
      0 <= start -> start + char_size < len text ->
      step text char_size char_overlap start sp next ->
      run text char_size char_overlap next rest ->
      run text char_size char_overlap start (sp :: rest).

(** Reading a list of spans as a cover of the text. *)
Fixpoint linked (stop : Z) (spans : list span) : Prop :=
  match spans with
  | [] => True
  | sp :: rest => span_start sp <= stop /\ linked (span_stop sp) rest
  end.

Definition covers (text : str) (spans : list span) : Prop :=
  (exists sp rest, spans = sp :: rest /\ span_start sp = 0 /\ linked (span_stop sp) rest) /\
  (exists sp, last spans = Some sp /\ span_stop sp = len text) /\
  (forall i, 0 <= i < len text ->
     exists sp, sp ∈ spans /\ span_start sp <= i < span_stop sp).

Fixpoint advancing (spans : list span) : Prop :=
  match spans with
  | sp :: (sp' :: _) as rest => span_start sp < span_start sp' /\ advancing rest
  | _ => True
  end.

(** [chunk_text(content)] as [index_file] calls it, with the default sizes;
    [chunk_text_default_eq] below shows the loop always ends for them. *)
Definition chunk_text_default (content : str) : list str :=
  default [] (chunk_text content CHUNK_SIZE CHUNK_OVERLAP).

(** ** Paths and identifiers

    Paths, identifiers, digests and metadata fields are kept as [string]s;
    the helpers below are the [str] and [os.path] operations the script
    applies to them. *)

Local Open Scope string_scope.

Definition DIRECTORY_TO_INDEX : string :=
  "/Users/dev/code/agentconsult/app/usergroupchatcontext".
Definition EXTENSIONS_TO_INDEX : list string :=
  [".ts"; ".tsx"; ".js"; ".jsx"; ".md"; ".txt"; ".css"].
Definition IGNORE_DIRS : list string := [".git"; "node_modules"; "__pycache__"].

(** [sub in s] *)
Fixpoint contains (sub s : string) : bool :=
  if String.prefix sub s then true
  else match s with
       | EmptyString => false
       | String _ s' => contains sub s'
       end.

(** [s.endswith(suffix)] *)
Definition endswith (s suffix : string) : bool :=
  String.prefix (String.rev suffix) (String.rev s).

(** [os.path.basename]: what follows the last slash. *)
Fixpoint basename (p : string) : string :=
  match p with
  | EmptyString => EmptyString
  | String _ p' => if contains "/" p then basename p' else p
  end.

Fixpoint from_last_dot (b : string) : option string :=
  match b with
  | EmptyString => None
  | String c b' =>
      match from_last_dot b' with
      | Some e => Some e
      | None => if Ascii.eqb c "." then Some b else None
      end
  end.

Fixpoint all_chars (c : ascii) (n : nat) (s : string) : bool :=
  match n, s with
  | S n', String d s' => Ascii.eqb c d && all_chars c n' s'
  | _, _ => true
  end.

(** The extension part of [os.path.splitext]: from the last dot of the base
    name on, unless only dots precede it. *)
Definition splitext_ext (p : string) : string :=
  let b := basename p in
  match from_last_dot b with
  | Some e =>
      if all_chars "." (String.length b - String.length e) b then "" else e
  | None => ""
  end.

Fixpoint replace_go (old new s : string) (skip : nat) : string :=
  match s with
  | EmptyString => EmptyString
  | String c s' =>
      match skip with
      | S k => replace_go old new s' k
      | O =>
          if String.prefix old s
          then new +:+ replace_go old new s' (String.length old - 1)
          else String c (replace_go old new s' 0)
      end
  end.

(** [s.replace(old, new)] for a non-empty [old]. *)
Definition replace (s old new : string) : string := replace_go old new s 0.

Fixpoint lstrip_char (c : ascii) (s : string) : string :=
  match s with
  | String d s' => if Ascii.eqb c d then lstrip_char c s' else s
  | EmptyString => EmptyString
  end.

Definition rstrip_char (c : ascii) (s : string) : string :=
  String.rev (lstrip_char c (String.rev s)).

(** [os.path.dirname] *)
Definition dirname (p : string) : string :=
  let head := substring 0 (String.length p - String.length (basename p)) p in
  if all_chars "/" (String.length head) head then head else rstrip_char "/" head.

Definition get_relative_path (file_path : string) : string :=
  lstrip_char "/" (replace file_path DIRECTORY_TO_INDEX "").

Definition should_index_file (file_path : string) : bool :=
  let ext := splitext_ext file_path in
  if negb (bool_decide (ext ∈ EXTENSIONS_TO_INDEX)) then false
  else negb (existsb (fun ignore_dir => contains ("/" +:+ ignore_dir +:+ "/") file_path)
               IGNORE_DIRS).

(** The identifier of chunk number [k] (counted from 1) under a prefix. *)
Definition chunk_id (base_doc_id : string) (k : nat) : string :=
  base_doc_id +:+ "-chunk-" +:+ pretty k.

Definition doc_id_prefix (file_type file_name : string) : string :=
  "usergroupchatcontext-" +:+ file_type +:+ "-" +:+ file_name.

(** ** Records sent to the vector store *)

Definition embedding := list PrimFloat.float.

Record Metadata := {
  md_file_path : string;
  md_file_name : string;
  md_directory : string;
  md_extension : string;
  md_file_type : string;
  md_last_modified : string;
  md_file_hash : string;
  md_source : string
}.

Record ChunkMetadata := {
  cm_file : Metadata;
  cm_chunk_index : nat;
  cm_total_chunks : nat;
  cm_text : str
}.

Record Vector := {
  v_id : string;
  v_values : embedding;
  v_metadata : ChunkMetadata
}.

(** ** The collaborators *)

(** A call either returns or lets an exception escape to its caller. *)
Inductive Result (A : Type) :=
  | Returned (a : A)
  | Raised.
Arguments Returned {A} a.
Arguments Raised {A}.

(** How [save_file_hashes] ends: the ledger file is written; [open] fails,
    the file is as it was; [open] has emptied the file and [json.dump]
    fails, what is left does not parse; or [os.makedirs], which is outside
    the [try], raises.  The first three return to the caller, the second and
    third after printing the error. *)
Inductive SaveOutcome := Saved | OpenFailed | DumpFailed | DirFailed.

(** Every call the script makes to the embedding provider, to the vector
    store or to the ledger file is recorded, with its outcome. *)
Inductive Call :=
  | Delete (ids : list string) (ok : bool)
  | Embed (input : str) (reply : option embedding)
  | Upsert (vectors : list Vector) (ok : bool)
  | SaveHashes (hashes : gmap string string) (outcome : SaveOutcome).

Inductive encoding := UTF8 | LATIN1 | CP1252.

(** What the script cannot decide itself: the files, the digest, the two
    codecs that can reject a byte sequence, and whether a call to a
    collaborator succeeds (a function of the calls made so far, so the same
    request may fail once and succeed later).  Files do not change while a
    run is under way: [readable] says whether [open] and [os.stat] succeed
    on a path, [file_bytes] what a readable file holds.  [decode_utf8] and
    [decode_cp1252] answer what [f.read()] returns, [None] when it raises
    [UnicodeDecodeError].  [embeddings_create] answers [None] when the
    provider raises; the store answers [false] when it raises. *)
Record Env := {
  readable : string -> bool;
  file_bytes : string -> list Byte.byte;
  sha256_hexdigest : list Byte.byte -> string;
  decode_utf8 : list Byte.byte -> option str;
  decode_cp1252 : list Byte.byte -> option str;
  mtime_isoformat : string -> string;
  embeddings_create : list Call -> str -> option embedding;
  pinecone_upsert : list Call -> list Vector -> bool;
  pinecone_delete : list Call -> list string -> bool;
  ledger_write : list Call -> gmap string string -> SaveOutcome
}.

(** Text mode with [newline=None]: [\r\n] and a lone [\r] are read as
    [\n]. *)
Fixpoint universal_newlines (s : str) : str :=
  match s with
  | [] => []
  | c :: s' =>
      if (c =? 13)%N then
        match s' with
        | d :: s'' => if (d =? 10)%N then NL :: universal_newlines s''
                      else NL :: universal_newlines s'
        | [] => [NL]
        end
      else c :: universal_newlines s'
  end.

(** Latin-1 gives every byte the code point of its value: it rejects
    nothing. *)
Definition decode_latin1 (bytes : list Byte.byte) : str :=
  universal_newlines (map Byte.to_N bytes).

Definition decode (env : Env) (enc : encoding) (bytes : list Byte.byte) : option str :=
  match enc with
  | UTF8 => decode_utf8 env bytes
  | LATIN1 => Some (decode_latin1 bytes)
  | CP1252 => decode_cp1252 env bytes
  end.

(** The state a run changes: the ledger file ([None] when it is missing or
    does not parse; a file that parses holds a mapping from paths to digests,
    as the script writes it), the vectors in the store, and the calls made so
    far. *)
Record World := {
  hash_file : option (gmap string string);
  index : gmap string Vector;
  calls : list Call
}.

Definition load_file_hashes (w : World) : gmap string string :=
  default ∅ (hash_file w).

Definition save_file_hashes (env : Env) (file_hashes : gmap string string) (w : World)
    : SaveOutcome * World :=
  let outcome := ledger_write env (calls w) file_hashes in
  (outcome,
   {| hash_file := match outcome with
                   | Saved => Some file_hashes
                   | DumpFailed => None
                   | OpenFailed | DirFailed => hash_file w
                   end;
      index := index w;
      calls := calls w ++ [SaveHashes file_hashes outcome] |}).

(** The digest of a file that can be opened. *)
Definition get_file_hash (env : Env) (file_path : string) : string :=
  sha256_hexdigest env (file_bytes env file_path).

(** The store keeps one vector per identifier; a call that raises changes
    nothing. *)
Definition index_delete (env : Env) (ids : list string) (w : World) : World :=
  let ok := pinecone_delete env (calls w) ids in
  {| hash_file := hash_file w;
     index := if ok then foldr delete (index w) ids else index w;
     calls := calls w ++ [Delete ids ok] |}.

Definition insert_vectors (vectors : list Vector) (m : gmap string Vector)
    : gmap string Vector :=
  foldl (fun m v => <[v_id v := v]> m) m vectors.

Definition index_upsert (env : Env) (vectors : list Vector) (w : World)
    : bool * World :=
  let ok := pinecone_upsert env (calls w) vectors in
  (ok, {| hash_file := hash_file w;
          index := if ok then insert_vectors vectors (index w) else index w;
          calls := calls w ++ [Upsert vectors ok] |}).

Definition get_embedding (env : Env) (text : str) (w : World)
    : option embedding * World :=
  let reply := embeddings_create env (calls w) text in
  (reply, {| hash_file := hash_file w;
             index := index w;
             calls := calls w ++ [Embed text reply] |}).

(** [not embedding] is false exactly for a non-empty vector. *)
Definition usable (reply : option embedding) : bool :=
  match reply with
  | Some (_ :: _) => true
  | _ => false
  end.

(** ** Metadata Builder *)

Definition CODE_EXTENSIONS : list string := [".ts"; ".tsx"; ".js"; ".jsx"].

Definition create_metadata (env : Env) (file_path : string) : Metadata :=
  let relative_path := get_relative_path file_path in
  let file_name := basename file_path in
  let file_dir := dirname relative_path in
  let ext := splitext_ext file_path in
  let file_type :=
    if bool_decide (ext ∈ CODE_EXTENSIONS) then
      if contains "components" file_path then "component"
      else if contains "hooks" file_path then "hook"
      else if contains "context" file_path then "context"
      else if contains "utils" file_path then "utility"
      else if contains "services" file_path then "service"
      else if contains "types" file_path then "type_definition"
      else "code"
    else if String.eqb ext ".md" then "documentation"
    else if String.eqb ext ".css" then "style"
    else if String.eqb ext ".txt" then "text"
    else "unknown" in
  {| md_file_path := relative_path;
     md_file_name := file_name;
     md_directory := file_dir;
     md_extension := ext;
     md_file_type := file_type;
     md_last_modified := mtime_isoformat env file_path;
     md_file_hash := get_file_hash env file_path;
     md_source := "usergroupchatcontext" |}.

Definition encodings : list encoding := [UTF8; LATIN1; CP1252].

Fixpoint read_with (env : Env) (bytes : list Byte.byte) (encs : list encoding) : str :=
  match encs with
  | [] => []
  | enc :: encs' =>
      match decode env enc bytes with
      | Some content => content
      | None => read_with env bytes encs'
      end
  end.

Definition read_file_content (env : Env) (file_path : string) : str :=
  read_with env (file_bytes env file_path) encodings.

(** ** Sync Orchestrator *)

(** The file type [delete_file_vectors] works out for itself: the loop over
    the code extensions stops at the first one the path ends with. *)
Fixpoint delete_code_type (exts : list string) (file_path file_type : string) : string :=
  match exts with
  | [] => file_type
  | ext :: exts' =>
      if endswith file_path ext then
        if contains "components" file_path then "component"
        else if contains "hooks" file_path then "hook"
        else file_type
      else delete_code_type exts' file_path file_type
  end.

Definition delete_file_type (file_path : string) : string :=
  let file_type := delete_code_type CODE_EXTENSIONS file_path "unknown" in
  if endswith file_path ".md" then "documentation"
  else if endswith file_path ".css" then "style"
  else if endswith file_path ".txt" then "text"
  else file_type.

(** [ids[i:i+size] for i in range(0, len(ids), size)] *)
Fixpoint batches_go {A} (fuel size : nat) (l : list A) : list (list A) :=
  match fuel, l with
  | S fuel', _ :: _ => take size l :: batches_go fuel' size (drop size l)
  | _, _ => []
  end.

Definition batches {A} (size : nat) (l : list A) : list (list A) :=
  batches_go (length l) size l.

(** [range(1, 50)] *)
Definition DELETE_RANGE : list nat := seq 1 49.

Definition ids_to_delete (file_path : string) : list string :=
  map (chunk_id (doc_id_prefix (delete_file_type file_path) (basename file_path)))
    DELETE_RANGE.

Definition delete_file_vectors (env : Env) (file_path : string) (w : World) : World :=
  foldl (fun w batch => index_delete env batch w) w
    (batches 100 (ids_to_delete file_path)).

(** The variables the [for] loop of [index_file] carries. *)
Record Loop := {
  world : World;
  vectors_to_upsert : list Vector;
  success : bool
}.

(** The loop body for chunk [chunk] at position [i] of [enumerate(chunks)]. *)
Definition index_chunk (env : Env) (metadata : Metadata) (base_doc_id : string)
    (total : nat) (i : nat) (chunk : str) (st : Loop) : Loop :=
  let doc_id := chunk_id base_doc_id (i + 1) in
  let chunk_metadata :=
    {| cm_file := metadata; cm_chunk_index := i + 1;
       cm_total_chunks := total; cm_text := chunk |} in
  let '(reply, w) := get_embedding env chunk (world st) in
  match reply with
  | Some ((_ :: _) as values) =>
      let vectors :=
        (vectors_to_upsert st
         ++ [{| v_id := doc_id; v_values := values; v_metadata := chunk_metadata |}])%list in
      if (100 <=? length vectors)%nat then
        let '(ok, w) := index_upsert env vectors w in
        if ok then {| world := w; vectors_to_upsert := []; success := success st |}
        else {| world := w; vectors_to_upsert := vectors; success := false |}
      else {| world := w; vectors_to_upsert := vectors; success := success st |}
  | _ => {| world := w; vectors_to_upsert := vectors_to_upsert st; success := false |}
  end.

Fixpoint index_chunks (env : Env) (metadata : Metadata) (base_doc_id : string)
    (total : nat) (i : nat) (chunks : list str) (st : Loop) : Loop :=
  match chunks with
  | [] => st
  | chunk :: chunks' =>
      index_chunks env metadata base_doc_id total (S i) chunks'
        (index_chunk env metadata base_doc_id total i chunk st)
  end.

(** The final flush after the loop. *)
Definition upsert_remaining (env : Env) (st : Loop) : Loop :=
  match vectors_to_upsert st with
  | [] => st
  | vectors =>
      let '(ok, w) := index_upsert env vectors (world st) in
      {| world := w; vectors_to_upsert := vectors;
         success := if ok then success st else false |}
  end.

(** What [index_file] answers after the ledger write: the exception of
    [os.makedirs] escapes, every other outcome returns [True]. *)
Definition after_save (saved : SaveOutcome * World) : Result bool * World :=
  (match saved.1 with
   | DirFailed => Raised
   | Saved | OpenFailed | DumpFailed => Returned true
   end, saved.2).

(** [get_file_hash] is the first to open the file, outside any [try]: for a
    file that cannot be opened the exception escapes [index_file].  The
    later accesses to the same file ([read_file_content], [os.stat] and
    [get_file_hash] in [create_metadata]) then succeed as the first did. *)
Definition index_file (env : Env) (file_path : string) (force_update : bool)
    (w : World) : Result bool * World :=
  if negb (should_index_file file_path) then (Returned false, w)
  else
    let file_hashes := load_file_hashes w in
    if negb (readable env file_path) then (Raised, w)
    else
      let current_hash := get_file_hash env file_path in
      if negb force_update
         && bool_decide (file_hashes !! file_path = Some current_hash)
      then (Returned true, w)
      else
        let w := delete_file_vectors env file_path w in
        let content := read_file_content env file_path in
        match content with
        | [] => (Returned false, w)
        | _ :: _ =>
            let metadata := create_metadata env file_path in
            let base_doc_id :=
              doc_id_prefix (md_file_type metadata) (md_file_name metadata) in
            let chunks := chunk_text_default content in
            let st :=
              index_chunks env metadata base_doc_id (length chunks) 0 chunks
                {| world := w; vectors_to_upsert := []; success := true |} in
            let st := upsert_remaining env st in
            if success st
            then after_save
                   (save_file_hashes env (<[file_path := current_hash]> file_hashes)
                      (world st))
            else (Returned false, world st)
        end.

(** The two drivers: [index_directory] over the files the walk yields, and
    [index_changed_files] over the changed files, always forced.  Neither
    catches anything: an exception that escapes [index_file] ends the loop,
    and the counts with it. *)
Record Tally := { success_count : nat; failure_count : nat }.

Definition tally_file (ok : bool) (t : Tally) : Tally :=
  if ok
  then {| success_count := S (success_count t); failure_count := failure_count t |}
  else {| success_count := success_count t; failure_count := S (failure_count t) |}.

Fixpoint index_files (env : Env) (force_update : bool) (files : list string)
    (w : World) (t : Tally) : Result Tally * World :=
  match files with
  | [] => (Returned t, w)
  | file_path :: files' =>
      match index_file env file_path force_update w with
      | (Returned ok, w) => index_files env force_update files' w (tally_file ok t)
      | (Raised, w) => (Raised, w)
      end
  end.



(** ** Change selector

    What [get_changed_files] asks of its surroundings: the output lines of
    the two git commands ([None] when starting the command raises), which
    paths exist, the files the directory walk yields, and whether a file was
    modified within the last hour ([None] when reading the time raises). *)
Record Repo := {
  git_status : option (list string);
  git_diff : option (list string);
  path_exists : string -> bool;
  walked_files : list string;
  modified_within_hour : string -> option bool
}.

Definition REPO_ROOT : string := "/Users/dev/code/agentconsult".

(** [os.path.join(a, b)] *)
Definition path_join (a b : string) : string :=
  if String.prefix "/" b then b
  else if String.eqb a "" || endswith a "/" then a +:+ b
  else a +:+ "/" +:+ b.

Fixpoint lstrip_space (s : string) : string :=
  match s with
  | String c s' => if isspace (N_of_ascii c) then lstrip_space s' else s
  | EmptyString => EmptyString
  end.

(** [s.strip()] on a line of git output *)
Definition strip_space (s : string) : string :=
  String.rev (lstrip_space (String.rev (lstrip_space s))).

(** The path a line of [git status --porcelain] contributes, if any. *)
Definition status_line_path (repo : Repo) (line : string) : option string :=
  if (3 <? String.length line)%nat then
    let status := substring 0 2 line in
    let file_path := strip_space (substring 3 (String.length line - 3) line) in
    if negb (String.eqb (strip_space status) "") && negb (String.prefix "??" status) then
      if String.prefix "app/usergroupchatcontext" file_path then
        let abs_path := path_join REPO_ROOT file_path in
        if should_index_file abs_path && path_exists repo abs_path
        then Some abs_path else None
      else None
    else None
  else None.

(** The path a line of [git diff --name-only HEAD~1 HEAD] contributes. *)
Definition diff_line_path (repo : Repo) (file_path : string) : option string :=
  if String.prefix "app/usergroupchatcontext" file_path then
    let abs_path := path_join REPO_ROOT file_path in
    if should_index_file abs_path && path_exists repo abs_path
    then Some abs_path else None
  else None.

Definition recently_modified (repo : Repo) (file_path : string) : bool :=
  should_index_file file_path
  && match modified_within_hour repo file_path with
     | Some recent => recent
     | None => false
     end.

(** Three stages, each tried only when the one before found nothing; an
    exception of a git command ends the search with what was found, that
    is, nothing. *)
Definition get_changed_files (repo : Repo) : list string :=
  match git_status repo with
  | None => []
  | Some lines =>
      match omap (status_line_path repo) lines with
      | (_ :: _) as changed_files => changed_files
      | [] =>
          match git_diff repo with
          | None => []
          | Some lines =>
              match omap (diff_line_path repo) lines with
              | (_ :: _) as changed_files => changed_files
              | [] => List.filter (recently_modified repo) (walked_files repo)
              end
          end
      end
  end.

Local Close Scope string_scope.

(** ** Sample texts *)

(** Thirty characters with two sentence breaks. *)
Definition two_sentences : str := text_of "aaaa. aaaaaa. aaaaaaaaaaaaaaaa".

(** Twelve characters without any break. *)
Definition twelve : str := text_of "aaaaaaaaaaaa".

(** Thirty-two characters whose only break is a paragraph break at offset 21. *)
Definition late_paragraph : str :=
  repeat 97%N 21 ++ [NL; NL] ++ repeat 97%N 9.

(** Fifty characters. *)
Definition fifty : str := repeat 97%N 50.

(** ** Reading the record of calls *)

(** A call that counts as a failure of the file: an embedding that is
    missing or empty, or an upsert that raised.  A failed delete does not. *)
Definition failed (c : Call) : bool :=
  match c with
  | Embed _ reply => negb (usable reply)
  | Upsert _ ok => negb ok
  | _ => false
  end.

(** A ledger write that did not store the mapping, and among those the one
    that broke off after [open] had emptied the file. *)
Definition write_failed (c : Call) : bool :=
  match c with
  | SaveHashes _ (OpenFailed | DumpFailed | DirFailed) => true
  | _ => false
  end.

Definition torn_write (c : Call) : bool :=
  match c with
  | SaveHashes _ DumpFailed => true
  | _ => false
  end.

Definition is_delete (c : Call) : bool :=
  match c with Delete _ _ => true | _ => false end.

Definition is_save (c : Call) : bool :=
  match c with SaveHashes _ _ => true | _ => false end.

(** The embedding requests among the calls, in order, with their replies. *)
Fixpoint embeds (evs : list Call) : list (str * option embedding) :=
  match evs with
  | [] => []
  | Embed input reply :: evs' => (input, reply) :: embeds evs'
  | _ :: evs' => embeds evs'
  end.

(** The vectors the store accepted, in order. *)
Fixpoint flushed (evs : list Call) : list Vector :=
  match evs with
  | [] => []
  | Upsert vectors true :: evs' => (vectors ++ flushed evs')%list
  | _ :: evs' => flushed evs'
  end.

(** The record [index_file] builds for chunk [chunk] at position [i]. *)
Definition vector_for (metadata : Metadata) (base_doc_id : string) (total : nat)
    (i : nat) (chunk : str) (values : embedding) : Vector :=
  {| v_id := chunk_id base_doc_id (i + 1);
     v_values := values;
     v_metadata := {| cm_file := metadata; cm_chunk_index := i + 1;
                      cm_total_chunks := total; cm_text := chunk |} |}.

(** The records built from a run of embedding replies, the first reply
    belonging to position [i]. *)
Fixpoint made (metadata : Metadata) (base_doc_id : string) (total : nat)
    (i : nat) (replies : list (str * option embedding)) : list Vector :=
  match replies with
  | [] => []
  | (chunk, Some ((_ :: _) as values)) :: replies' =>
      vector_for metadata base_doc_id total i chunk values
      :: made metadata base_doc_id total (S i) replies'
  | _ :: replies' => made metadata base_doc_id total (S i) replies'
  end.

(** [file_path] gets past the filter and the hash check of [index_file]:
    it has a listed extension, it can be opened, and the run is forced or
    the ledger does not hold its digest. *)
Definition reindexed (env : Env) (w : World) (file_path : string)
    (force_update : bool) : Prop :=
  should_index_file file_path = true /\
  readable env file_path = true /\
  (force_update = true \/
   load_file_hashes w !! file_path <> Some (get_file_hash env file_path)).

(** The identifiers [prefix-chunk-k] present in the store are exactly those
    with [1 <= k <= n]. *)
Definition chunk_ids_exactly (w : World) (base_doc_id : string) (n : nat) : Prop :=
  forall k : nat, is_Some (index w !! chunk_id base_doc_id k) <-> (1 <= k <= n)%nat.

(** ** Invariants of [index_file]

    What holds between two chunks of the loop of [index_file], started in
    world [w0]: [evs] are the calls made so far, for the chunks [done]. *)
Record loop_inv (env : Env) (metadata : Metadata) (base_doc_id : string)
    (total : nat) (w0 : World) (done : list str) (st : Loop) (evs : list Call)
    : Prop := {
  inv_calls : calls (world st) = calls w0 ++ evs;
  inv_hash : hash_file (world st) = hash_file w0;
  inv_kinds : Forall (fun c => is_delete c = false /\ is_save c = false) evs;
  inv_inputs : map fst (embeds evs) = done;
  inv_made :
    made metadata base_doc_id total 0 (embeds evs)
    = flushed evs ++ vectors_to_upsert st;
  inv_index : index (world st) = insert_vectors (flushed evs) (index w0);
  inv_success : success st = true <-> Forall (fun c => failed c = false) evs
}.

(** What holds after the final flush: every chunk was submitted, the flag
    [success] says whether any call failed, every record built was handed to
    the store, and on success the store took them all. *)
Record file_inv (metadata : Metadata) (base_doc_id : string)
    (total : nat) (w0 : World) (chunks : list str) (st : Loop) (evs : list Call)
    : Prop := {
  fin_calls : calls (world st) = calls w0 ++ evs;
  fin_hash : hash_file (world st) = hash_file w0;
  fin_kinds : Forall (fun c => is_delete c = false /\ is_save c = false) evs;
  fin_inputs : map fst (embeds evs) = chunks;
  fin_success : success st = true <-> Forall (fun c => failed c = false) evs;
  fin_sent : forall v, v ∈ made metadata base_doc_id total 0 (embeds evs) ->
    exists vectors ok, Upsert vectors ok ∈ evs /\ v ∈ vectors;
  fin_index : success st = true ->
    made metadata base_doc_id total 0 (embeds evs) = flushed evs /\
    index (world st) = insert_vectors (flushed evs) (index w0)
}.

(** The five ways [index_file] ends. *)
Inductive outcome (env : Env) (file_path : string) (force_update : bool)
    (w : World) : Result bool * World -> Prop :=
  | out_filtered :
      should_index_file file_path = false ->
      outcome env file_path force_update w (Returned false, w)
  | out_unreadable :
      should_index_file file_path = true ->
      readable env file_path = false ->
      outcome env file_path force_update w (Raised, w)
  | out_unchanged :
      should_index_file file_path = true -> readable env file_path = true ->
      force_update = false ->
      load_file_hashes w !! file_path = Some (get_file_hash env file_path) ->
      outcome env file_path force_update w (Returned true, w)
  | out_no_content :
      reindexed env w file_path force_update ->
      read_file_content env file_path = [] ->
      outcome env file_path force_update w
        (Returned false, delete_file_vectors env file_path w)
  | out_indexed st evs :
      reindexed env w file_path force_update ->
      read_file_content env file_path <> [] ->
      file_inv (create_metadata env file_path)
        (doc_id_prefix (md_file_type (create_metadata env file_path))
           (md_file_name (create_metadata env file_path)))
        (length (chunk_text_default (read_file_content env file_path)))
        (delete_file_vectors env file_path w)
        (chunk_text_default (read_file_content env file_path)) st evs ->
      outcome env file_path force_update w
        (if success st
         then after_save
                (save_file_hashes env
                   (<[file_path := get_file_hash env file_path]> (load_file_hashes w))
                   (world st))
         else (Returned false, world st)).

(** ** Sample environments

    Concrete collaborators for the worked examples: every file can be
    opened, every call to a collaborator succeeds, the digest of a file is
    its length and byte sum (enough to tell the sample contents apart), and
    UTF-8 and cp1252 read plain ASCII and reject everything else. *)

Definition ascii_text (bytes : list Byte.byte) : option str :=
  if forallb (fun b => (Byte.to_N b <? 128)%N) bytes
  then Some (universal_newlines (map Byte.to_N bytes)) else None.

Definition sample_digest (bytes : list Byte.byte) : string :=
  (pretty (length bytes) +:+ "-"
   +:+ pretty (foldr (fun b n => (Byte.to_N b + n)%N) 0%N bytes))%string.

Definition sample_vector : embedding := [1%float; 0%float].

Definition sample_env (files : string -> list Byte.byte) : Env :=
  {| readable := fun _ => true;
     file_bytes := files;
     sha256_hexdigest := sample_digest;
     decode_utf8 := ascii_text;
     decode_cp1252 := ascii_text;
     mtime_isoformat := fun _ => "2025-01-01T00:00:00"%string;
     embeddings_create := fun _ _ => Some sample_vector;
     pinecone_upsert := fun _ _ => true;
     pinecone_delete := fun _ _ => true;
     ledger_write := fun _ _ => Saved |}.

Definition empty_world : World :=
  {| hash_file := None; index := ∅; calls := [] |}.

(** A provider that raises on the request made after [n] earlier ones and
    answers all others. *)
Definition fails_after (n : nat) (history : list Call) (input : str)
    : option embedding :=
  if (length (embeds history) =? n)%nat then None else Some sample_vector.

(** A ledger whose file cannot be written once it is open. *)
Definition torn_env (files : string -> list Byte.byte) : Env :=
  {| readable := fun _ => true;
     file_bytes := files;
     sha256_hexdigest := sample_digest;
     decode_utf8 := ascii_text;
     decode_cp1252 := ascii_text;
     mtime_isoformat := fun _ => "2025-01-01T00:00:00"%string;
     embeddings_create := fun _ _ => Some sample_vector;
     pinecone_upsert := fun _ _ => true;
     pinecone_delete := fun _ _ => true;
     ledger_write := fun _ _ => DumpFailed |}.

Definition flaky_env (n : nat) (files : string -> list Byte.byte) : Env :=
  {| readable := fun _ => true;
     file_bytes := files;
     sha256_hexdigest := sample_digest;
     decode_utf8 := ascii_text;
     decode_cp1252 := ascii_text;
     mtime_isoformat := fun _ => "2025-01-01T00:00:00"%string;
     embeddings_create := fails_after n;
     pinecone_upsert := fun _ _ => true;
     pinecone_delete := fun _ _ => true;
     ledger_write := fun _ _ => Saved |}.

Definition notes_md : string := (DIRECTORY_TO_INDEX +:+ "/docs/notes.md")%string.
Definition foo_ts : string := (DIRECTORY_TO_INDEX +:+ "/utils/foo.ts")%string.

Definition notes_prefix : string := "usergroupchatcontext-documentation-notes.md".

(** A file of [n] letters. *)
Definition letters (n : nat) : string -> list Byte.byte := fun _ => repeat "a"%byte n.

(** The world after a first, non-forced indexing of [notes.md] when it held
    2001 letters (two chunks), and when it held 80000 letters (fifty chunks). *)
Definition after_two_chunks : World :=
  Eval vm_compute in (index_file (sample_env (letters 2001)) notes_md false empty_world).2.

Definition after_fifty_chunks : World :=
  Eval vm_compute in (index_file (sample_env (letters 80000)) notes_md false empty_world).2.

(** The world after a first indexing of [utils/foo.ts] holding 2001 letters. *)
Definition foo_after_two_chunks : World :=
  Eval vm_compute in (index_file (sample_env (letters 2001)) foo_ts false empty_world).2.

(** How far a span may reach, by the branch that produced it. *)
Definition span_bounded (char_size char_overlap : Z) (sp : span) : Prop :=
  match span_cut sp with
  | AtParagraph | AtSentence | AtLine =>
      span_start sp + char_size - char_overlap <= span_stop sp
      < span_start sp + char_size + char_overlap
  | HardCut => span_stop sp = span_start sp + char_size
  | Remainder | Whole => span_stop sp - span_start sp <= char_size
  end.

(** ** Vocabulary of the further properties *)

(** The [k]-th hard-cut window of a text that offers no break. *)
Definition window (char_size stride start : Z) (k : nat) : span :=
  Span (start + Z.of_nat k * stride) (start + Z.of_nat k * stride + char_size) HardCut.

(** Neither the first nor the last character is whitespace. *)
Definition trimmed (s : str) : Prop :=
  (forall c rest, s = c :: rest -> isspace c = false) /\
  (forall c front, s = front ++ [c] -> isspace c = false).

(** The file types [create_metadata] can store for a file of a listed
    extension, and those among them [delete_file_vectors] has no rule for. *)
Definition KNOWN_TYPES : list string :=
  ["component"; "hook"; "context"; "utility"; "service"; "type_definition";
   "code"; "documentation"; "style"; "text"]%string.

Definition STORED_ONLY_TYPES : list string :=
  ["context"; "utility"; "service"; "type_definition"; "code"]%string.

(** An upsert request carries between 1 and 100 records. *)
Definition batch_ok (c : Call) : Prop :=
  match c with
  | Upsert vectors _ => (1 <= length vectors <= 100)%nat
  | _ => True
  end.

Definition upsert_failed (c : Call) : bool :=
  match c with
  | Upsert _ false => true
  | _ => false
  end.

(** What holds of the requests made so far, between two chunks of the loop
    of [index_file] and after the final flush, whether or not a request has
    failed. *)
Record sent_inv (metadata : Metadata) (base_doc_id : string) (total : nat)
    (w0 : World) (done : list str) (st : Loop) (evs : list Call) : Prop := {
  sent_calls : calls (world st) = calls w0 ++ evs;
  sent_inputs : map fst (embeds evs) = done;
  sent_pending : forall v, v ∈ vectors_to_upsert st ->
    v ∈ made metadata base_doc_id total 0 (embeds evs);
  sent_upserts : forall vectors ok v, Upsert vectors ok ∈ evs -> v ∈ vectors ->
    v ∈ made metadata base_doc_id total 0 (embeds evs);
  sent_index : exists stored,
    index (world st) = insert_vectors stored (index w0) /\
    forall v, v ∈ stored -> v ∈ made metadata base_doc_id total 0 (embeds evs);
  sent_batches : Forall (fun c => upsert_failed c = false) evs ->
    (length (vectors_to_upsert st) < 100)%nat /\ Forall batch_ok evs
}.

(** The identifier prefix and the chunks [index_file] works with. *)
Definition file_prefix (env : Env) (file_path : string) : string :=
  doc_id_prefix (md_file_type (create_metadata env file_path))
    (md_file_name (create_metadata env file_path)).

Definition file_chunks (env : Env) (file_path : string) : list str :=
  chunk_text_default (read_file_content env file_path).

(** The loop state after the loop and the final flush. *)
Definition indexed_state (env : Env) (file_path : string) (w : World) : Loop :=
  upsert_remaining env
    (index_chunks env (create_metadata env file_path) (file_prefix env file_path)
       (length (file_chunks env file_path)) 0 (file_chunks env file_path)
       {| world := delete_file_vectors env file_path w;
          vectors_to_upsert := []; success := true |}).

(** The world after a forced indexing of [notes.md] holding three letters. *)
Definition after_three_letters : World :=
  Eval vm_compute in (index_file (sample_env (letters 3)) notes_md true empty_world).2.

(** A world whose ledger knows [foo.ts] only, and the worlds after a forced
    indexing of [notes.md] from there: with a ledger that can be written,
    and with one whose write fails once the file is open. *)
Definition foo_in_ledger : World :=
  {| hash_file := Some {[ foo_ts := "3-291"%string ]}; index := ∅; calls := [] |}.

Definition notes_beside_foo : World :=
  Eval vm_compute in (index_file (sample_env (letters 3)) notes_md true foo_in_ledger).2.

Definition notes_beside_foo_torn : World :=
  Eval vm_compute in (index_file (torn_env (letters 3)) notes_md true foo_in_ledger).2.

(** The world after a forced run on [notes.md], three letters and already
    indexed, in which the provider fails. *)
Definition after_failed_forced_run : World :=
  Eval vm_compute in
    (index_file (flaky_env 1 (letters 3)) notes_md true after_three_letters).2.

(** * Properties of the chunker *)

Section Strings.

Implicit Types (s sub text : str).

Lemma len_nonneg s : 0 <= len s.
Proof. unfold len. lia. Qed.

Lemma clamp_range n i : 0 <= n -> 0 <= clamp n i <= n.
Proof. unfold clamp. destruct (Z.ltb_spec i 0); lia. Qed.

Lemma clamp_inside n i : 0 <= i <= n -> clamp n i = i.
Proof. unfold clamp. destruct (Z.ltb_spec i 0); lia. Qed.

Lemma clamp_above n i : 0 <= n <= i -> clamp n i = n.
Proof. unfold clamp. destruct (Z.ltb_spec i 0); lia. Qed.

Lemma clamp_nonneg n i : 0 <= i -> clamp n i = Z.min i n.
Proof. unfold clamp. destruct (Z.ltb_spec i 0); lia. Qed.

Lemma len_slice text a b :
  0 <= a -> a <= b -> len (slice text a b) = Z.min b (len text) - Z.min a (len text).
Proof.
  intros Ha Hab. unfold slice, len. rewrite !clamp_nonneg by lia.
  rewrite length_take, length_drop. fold (len text). unfold len. lia.
Qed.

Lemma len_slice_le text a b : 0 <= a -> a <= b -> len (slice text a b) <= b - a.
Proof. intros. rewrite len_slice by lia. pose proof (len_nonneg text). lia. Qed.

Lemma len_slice_from text a :
  0 <= a <= len text -> len (slice_from text a) = len text - a.
Proof.
  intros Ha. unfold slice_from. rewrite clamp_inside by lia.
  unfold len in *. rewrite length_drop. lia.
Qed.

Lemma slice_from_slice text a : slice_from text a = slice text a (len text).
Proof.
  unfold slice_from, slice. pose proof (len_nonneg text) as Hn.
  rewrite (clamp_above (len text) (len text)) by lia.
  pose proof (clamp_range (len text) a Hn) as Hc.
  rewrite take_ge; [done|]. rewrite length_drop. unfold len in *. lia.
Qed.

Lemma length_lstrip s : (length (lstrip s) <= length s)%nat.
Proof. induction s as [|c s IH]; simpl; [lia|]. destruct (isspace c); simpl; lia. Qed.

Lemma len_strip s : len (strip s) <= len s.
Proof.
  unfold strip, rstrip, len. rewrite length_rev.
  pose proof (length_lstrip (rev (lstrip s))) as H1.
  pose proof (length_lstrip s) as H2. rewrite length_rev in H1. lia.
Qed.

Lemma starts_with_take sub s :
  starts_with sub s = true <-> take (length sub) s = sub.
Proof.
  revert s. induction sub as [|c sub IH]; intros [|d s]; simpl; try done.
  rewrite andb_true_iff, N.eqb_eq, IH. split.
  - intros [-> ->]. done.
  - intros [= -> ->]. done.
Qed.

(** [find_in] returns the first of the [n] positions at which [sub] is read. *)
Lemma find_in_spec sub s i n :
  (find_in sub s i n = -1 /\
   forall k, (k < n)%nat -> starts_with sub (drop k s) = false) \/
  (exists k, (k < n)%nat /\ find_in sub s i n = i + Z.of_nat k /\
     starts_with sub (drop k s) = true /\
     forall k', (k' < k)%nat -> starts_with sub (drop k' s) = false).
Proof.
  revert s i. induction n as [|n IH]; intros s i; simpl.
  { left. split; [done|]. intros k Hk. lia. }
  destruct (starts_with sub s) eqn:Hs.
  { right. exists 0%nat. rewrite Z.add_0_r. repeat split; [lia|done|]. intros; lia. }
  destruct s as [|d s].
  { left. split; [done|]. intros k _. by rewrite drop_nil. }
  destruct (IH s (i + 1)) as [[Hr Hno]|(k & Hk & Hr & Hyes & Hno)].
  - left. split; [done|]. intros [|k] Hk; [done|]. simpl. apply Hno. lia.
  - right. exists (S k). repeat split; [lia|lia|done|].
    intros [|k'] Hk'; [done|]. simpl. apply Hno. lia.
Qed.

Lemma occurs_starts_with text sub j :
  0 <= j -> occurs text sub j <-> starts_with sub (drop (Z.to_nat j) text) = true.
Proof. intros Hj. unfold occurs. rewrite starts_with_take. tauto. Qed.

Lemma occurs_inside text sub j :
  sub <> [] -> occurs text sub j -> j + len sub <= len text.
Proof.
  intros Hsub [Hj Ht]. apply (f_equal length) in Ht.
  rewrite length_take, length_drop in Ht. unfold len.
  assert (0 < length sub)%nat by (destruct sub; [done|simpl; lia]). lia.
Qed.

(** [str.find] with non-negative bounds: a result other than [-1] is the
    leftmost match inside the window. *)
Lemma find_found text sub lo hi :
  0 <= lo -> 0 <= hi -> sub <> [] -> find text sub lo hi <> -1 ->
  first_match text sub lo hi (find text sub lo hi).
Proof.
  intros Hlo Hhi Hsub. unfold find. rewrite !clamp_nonneg by lia.
  pose proof (len_nonneg text) as Hn. pose proof (len_nonneg sub) as Hm.
  destruct (Z.ltb_spec (Z.min hi (len text) - Z.min lo (len text)) (len sub)) as [|Hw];
    [done|].
  destruct (find_in_spec sub (drop (Z.to_nat (Z.min lo (len text))) text)
              (Z.min lo (len text))
              (Z.to_nat (Z.min hi (len text) - Z.min lo (len text) - len sub + 1)))
    as [[-> _]|(k & Hk & -> & Hyes & Hno)]; [done|].
  intros _. rewrite drop_drop in Hyes.
  assert (Hin : occurs text sub (Z.min lo (len text) + Z.of_nat k)).
  { apply occurs_starts_with; [lia|].
    replace (Z.to_nat (Z.min lo (len text) + Z.of_nat k))
      with (Z.to_nat (Z.min lo (len text)) + k)%nat by lia. done. }
  pose proof (occurs_inside _ _ _ Hsub Hin) as Hfit.
  assert (0 < len sub) by (unfold len; destruct sub; [done|simpl; lia]).
  assert (Z.min lo (len text) = lo) as Hmin by lia.
  rewrite Hmin in *. repeat split; [lia|lia|lia|apply Hin|].
  intros j Hj Hocc. apply occurs_starts_with in Hocc; [|lia].
  specialize (Hno (Z.to_nat (j - lo))). rewrite drop_drop in Hno.
  replace (Z.to_nat lo + Z.to_nat (j - lo))%nat with (Z.to_nat j) in Hno by lia.
  rewrite Hno in Hocc; [done|lia].
Qed.

(** [str.find] with non-negative bounds: [-1] means no match in the window. *)
Lemma find_none text sub lo hi :
  0 <= lo -> 0 <= hi -> sub <> [] -> find text sub lo hi = -1 ->
  no_match text sub lo hi.
Proof.
  intros Hlo Hhi Hsub. unfold find. rewrite !clamp_nonneg by lia.
  pose proof (len_nonneg text) as Hn. pose proof (len_nonneg sub) as Hm.
  intros Hf j Hj Hjhi Hocc. pose proof (occurs_inside _ _ _ Hsub Hocc) as Hfit.
  destruct (Z.ltb_spec (Z.min hi (len text) - Z.min lo (len text)) (len sub)) as [|Hw];
    [lia|].
  destruct (find_in_spec sub (drop (Z.to_nat (Z.min lo (len text))) text)
              (Z.min lo (len text))
              (Z.to_nat (Z.min hi (len text) - Z.min lo (len text) - len sub + 1)))
    as [[_ Hno]|(k & Hk & Hr & _)]; [|lia].
  apply occurs_starts_with in Hocc; [|lia].
  specialize (Hno (Z.to_nat (j - Z.min lo (len text)))). rewrite drop_drop in Hno.
  replace (Z.to_nat (Z.min lo (len text)) + Z.to_nat (j - Z.min lo (len text)))%nat
    with (Z.to_nat j) in Hno by lia.
  rewrite Hno in Hocc; [done|lia].
Qed.

End Strings.

Section Chunker.

Variables (text : str) (char_size char_overlap : Z).

(** [span_loop] and [chunk_loop] are the same loop: erasing the positions
    from the spans gives the chunks. *)
Lemma chunk_loop_spans fuel start spans :
  chunk_loop fuel text char_size char_overlap start (map (span_text text) spans)
  = map (span_text text) <$> span_loop fuel text char_size char_overlap start spans.
Proof.
  revert start spans. induction fuel as [|fuel IH]; intros start spans; [done|].
  simpl. destruct (start <? len text); [|done].
  destruct (start + char_size >=? len text).
  { simpl. by rewrite map_app. }
  repeat match goal with
  | |- context [negb ?b] => destruct b; simpl
  end; rewrite <- IH, map_app; done.
Qed.

(** The loop head at a cursor at or past the end of the text leaves the loop. *)
Lemma chunk_loop_exit fuel start chunks :
  len text <= start ->
  chunk_loop (S fuel) text char_size char_overlap start chunks = Some chunks.
Proof. intros H. simpl. destruct (Z.ltb_spec start (len text)); [lia|done]. Qed.

(** One iteration whose candidate end lies before the end of the text. *)
Lemma span_loop_step start :
  0 <= start + char_size - char_overlap -> 0 <= start + char_size + char_overlap ->
  start + char_size < len text -> start < len text ->
  exists sp next,
    step text char_size char_overlap start sp next /\
    forall fuel spans,
      span_loop (S fuel) text char_size char_overlap start spans
      = span_loop fuel text char_size char_overlap next (spans ++ [sp]).
Proof.
  intros Hlo Hhi Hend Hstart.
  set (lo := start + char_size - char_overlap) in *.
  set (hi := start + char_size + char_overlap) in *.
  assert (Hhead : forall fuel spans,
    span_loop (S fuel) text char_size char_overlap start spans =
    let paragraph_break := find text [NL; NL] lo hi in
    if negb (paragraph_break =? -1) then
      span_loop fuel text char_size char_overlap paragraph_break
        (spans ++ [Span start paragraph_break AtParagraph])
    else
      let sentence_break := find text [DOT; SPACE] lo hi in
      if negb (sentence_break =? -1) then
        span_loop fuel text char_size char_overlap (sentence_break + 1)
          (spans ++ [Span start (sentence_break + 1) AtSentence])
      else
        let line_break := find text [NL] lo hi in
        if negb (line_break =? -1) then
          span_loop fuel text char_size char_overlap line_break
            (spans ++ [Span start line_break AtLine])
        else
          span_loop fuel text char_size char_overlap lo
            (spans ++ [Span start (start + char_size) HardCut])).
  { intros fuel spans. simpl.
    destruct (Z.ltb_spec start (len text)); [|lia].
    destruct (Z.geb_spec (start + char_size) (len text)); [lia|]. done. }
  destruct (Z.eqb_spec (find text [NL; NL] lo hi) (-1)) as [Hp|Hp].
  2:{ eexists _, _. split; [apply step_paragraph, find_found; done|].
      intros fuel spans. rewrite Hhead. simpl.
      by destruct (Z.eqb_spec (find text [NL; NL] lo hi) (-1)). }
  apply find_none in Hp; [|done..].
  destruct (Z.eqb_spec (find text [DOT; SPACE] lo hi) (-1)) as [Hs|Hs].
  2:{ eexists _, _. split; [apply step_sentence; [done|apply find_found; done]|].
      intros fuel spans. rewrite Hhead. simpl.
      destruct (Z.eqb_spec (find text [NL; NL] lo hi) (-1)) as [_|Hp'].
      - by destruct (Z.eqb_spec (find text [DOT; SPACE] lo hi) (-1)).
      - destruct Hp'. destruct (Z.eq_dec (find text [NL; NL] lo hi) (-1)); [done|].
        exfalso. destruct (find_found text [NL; NL] lo hi) as (?&?&?&?); [done..|].
        eapply Hp; eauto. }
  apply find_none in Hs; [|done..].
  destruct (Z.eqb_spec (find text [NL] lo hi) (-1)) as [Hl|Hl].
  2:{ eexists _, _. split; [apply step_line; [done|done|apply find_found; done]|].
      intros fuel spans. rewrite Hhead. simpl.
      destruct (Z.eqb_spec (find text [NL; NL] lo hi) (-1)) as [_|Hp'].
      - destruct (Z.eqb_spec (find text [DOT; SPACE] lo hi) (-1)) as [_|Hs'].
        + by destruct (Z.eqb_spec (find text [NL] lo hi) (-1)).
        + exfalso. destruct (find_found text [DOT; SPACE] lo hi) as (?&?&?&?); [done..|].
          eapply Hs; eauto.
      - exfalso. destruct (find_found text [NL; NL] lo hi) as (?&?&?&?); [done..|].
        eapply Hp; eauto. }
  apply find_none in Hl; [|done..].
  eexists _, _. split; [apply step_hard; done|].
  intros fuel spans. rewrite Hhead. simpl.
  destruct (Z.eqb_spec (find text [NL; NL] lo hi) (-1)) as [_|Hp'].
  - destruct (Z.eqb_spec (find text [DOT; SPACE] lo hi) (-1)) as [_|Hs'].
    + destruct (Z.eqb_spec (find text [NL] lo hi) (-1)) as [_|Hl']; [done|].
      exfalso. destruct (find_found text [NL] lo hi) as (?&?&?&?); [done..|].
      eapply Hl; eauto.
    + exfalso. destruct (find_found text [DOT; SPACE] lo hi) as (?&?&?&?); [done..|].
      eapply Hs; eauto.
  - exfalso. destruct (find_found text [NL; NL] lo hi) as (?&?&?&?); [done..|].
    eapply Hp; eauto.
Qed.

End Chunker.

Section Runs.

Variables (text : str) (char_size char_overlap : Z).
Hypothesis overlap_below_size : 0 <= char_overlap < char_size.

Local Abbreviation step := (step text char_size char_overlap).
Local Abbreviation run := (run text char_size char_overlap).

(** What every step guarantees: the cursor moves forward, never beyond the
    end of the emitted span, and stays inside the text. *)
Lemma step_facts start sp next :
  0 <= start -> start + char_size < len text -> step start sp next ->
  span_start sp = start /\ start < next /\ next <= span_stop sp /\
  next < len text /\ span_stop sp <= len text /\
  span_cut sp <> Remainder /\ span_cut sp <> Whole /\
  span_bounded char_size char_overlap sp.
Proof.
  intros Hstart Hend Hstep. unfold span_bounded.
  destruct Hstep as [p (Hlo & Hhi & Hocc & _)
                    |p _ (Hlo & Hhi & Hocc & _)
                    |p _ _ (Hlo & Hhi & Hocc & _)
                    |_ _ _]; simpl;
    try (apply occurs_inside in Hocc; [|done]); unfold len in *; simpl in *;
    repeat split; try done; lia.
Qed.

(** With enough fuel the loop ends, and what it appends is a [run]. *)
Lemma span_loop_run fuel : forall start spans,
  0 <= start < len text -> len text - start < Z.of_nat fuel ->
  exists rest,
    span_loop fuel text char_size char_overlap start spans = Some (spans ++ rest) /\
    run start rest.
Proof.
  induction fuel as [|fuel IH]; intros start spans Hstart Hfuel; [lia|].
  destruct (Z.lt_ge_cases (start + char_size) (len text)) as [Hend|Hend].
  - destruct (span_loop_step text char_size char_overlap start)
      as (sp & next & Hstep & Heq); [lia..|].
    destruct (step_facts _ _ _ (proj1 Hstart) Hend Hstep) as (_ & Hadv & _ & Hin & _).
    destruct (IH next (spans ++ [sp])) as (rest & Hrest & Hrun); [lia..|].
    exists (sp :: rest). rewrite Heq, Hrest, <- app_assoc. split; [done|].
    eapply run_step; eauto; lia.
  - exists [Span start (len text) Remainder]. split; [|apply run_remainder; lia].
    simpl. destruct (Z.ltb_spec start (len text)); [|lia].
    destruct (Z.geb_spec (start + char_size) (len text)); [done|lia].
Qed.

Lemma run_head start spans :
  run start spans -> exists sp rest, spans = sp :: rest /\ span_start sp = start.
Proof.
  intros [s ? ?|s sp next rest ? Hend Hstep _]; [by eexists _, _|].
  exists sp, rest. split; [done|]. by apply (step_facts s sp next).
Qed.

Lemma run_advancing start spans : run start spans -> advancing spans.
Proof.
  induction 1 as [|start sp next rest Hstart Hend Hstep Hrun IH]; [done|].
  destruct (run_head _ _ Hrun) as (sp' & rest' & -> & Hsp').
  destruct (step_facts _ _ _ Hstart Hend Hstep) as (Hs & Hadv & _).
  simpl. split; [lia|done].
Qed.

Lemma run_linked start spans stop :
  run start spans -> start <= stop -> linked stop spans.
Proof.
  intros Hrun. revert stop.
  induction Hrun as [|start sp next rest Hstart Hend Hstep Hrun IH]; intros stop Hle.
  - simpl. done.
  - destruct (step_facts _ _ _ Hstart Hend Hstep) as (Hs & _ & Hnext & _).
    simpl. split; [lia|]. by apply IH.
Qed.

Lemma run_last start spans :
  run start spans ->
  exists s, last spans = Some (Span s (len text) Remainder) /\
    start <= s < len text /\ len text <= s + char_size.
Proof.
  induction 1 as [start|start sp next rest Hstart Hend Hstep Hrun IH].
  - exists start. simpl. repeat split; [lia..|done].
  - destruct IH as (s & Hlast & Hs & Hrem).
    destruct (step_facts _ _ _ Hstart Hend Hstep) as (_ & Hadv & _).
    exists s. split; [|lia].
    destruct (run_head _ _ Hrun) as (sp' & rest' & -> & _). done.
Qed.

Lemma run_pointwise start spans i :
  run start spans -> start <= i < len text ->
  exists sp, sp ∈ spans /\ span_start sp <= i < span_stop sp.
Proof.
  intros Hrun. induction Hrun as [start|start sp next rest Hstart Hend Hstep Hrun IH];
    intros Hi.
  - eexists. split; [apply list_elem_of_singleton; reflexivity|]. simpl. lia.
  - destruct (step_facts _ _ _ Hstart Hend Hstep) as (Hs & _ & Hnext & _).
    destruct (Z.lt_ge_cases i (span_stop sp)) as [Hlt|Hge].
    + exists sp. split; [left|lia].
    + destruct IH as (sp' & Hin & Hsp'); [lia|]. exists sp'. split; [by right|done].
Qed.

Lemma run_bounded start spans :
  run start spans -> Forall (span_bounded char_size char_overlap) spans.
Proof.
  induction 1 as [start|start sp next rest Hstart Hend Hstep Hrun IH].
  - constructor; [|done]. unfold span_bounded. simpl. lia.
  - constructor; [|done]. by apply (step_facts start sp next).
Qed.

(** Spans of a run lie inside the text, so the chunk of a span is no longer
    than the span. *)
Lemma run_inside start spans :
  run start spans ->
  Forall (fun sp => 0 <= span_start sp <= span_stop sp /\ span_stop sp <= len text /\
                    span_cut sp <> Whole /\
                    (span_cut sp = Remainder -> span_stop sp = len text)) spans.
Proof.
  induction 1 as [start|start sp next rest Hstart Hend Hstep Hrun IH].
  - constructor; [|done]. simpl. repeat split; [lia..|done|done].
  - constructor; [|done].
    destruct (step_facts _ _ _ Hstart Hend Hstep) as (Hs & ? & ? & ? & ? & ? & ? & _).
    repeat split; [lia..|done|done].
Qed.

End Runs.

Lemma len_span_text text sp :
  0 <= span_start sp <= span_stop sp -> span_stop sp <= len text ->
  span_cut sp <> Whole -> (span_cut sp = Remainder -> span_stop sp = len text) ->
  len (span_text text sp) <= span_stop sp - span_start sp.
Proof.
  intros Hs Hstop Hwhole Hrem. unfold span_text.
  destruct (span_cut sp); try done;
    try (etrans; [apply len_strip|]; apply len_slice_le; lia).
  rewrite len_slice_from by lia. rewrite Hrem by done. lia.
Qed.

Lemma last_map {A B} (f : A -> B) (l : list A) : last (map f l) = f <$> last l.
Proof. induction l as [|x [|y l] IH]; done. Qed.

(** A text no longer than [chunk_size * 4] is returned whole. *)
Lemma chunk_text_whole text chunk_size overlap :
  len text <= chunk_size * 4 ->
  chunk_spans text chunk_size overlap = Some [Span 0 (len text) Whole] /\
  chunk_text text chunk_size overlap = Some [text].
Proof.
  intros H. unfold chunk_spans, chunk_text, chunk_text_fuel.
  by destruct (Z.leb_spec (len text) (chunk_size * 4)); [|lia].
Qed.

(** A longer text is cut by a run of the loop from cursor 0, which ends
    within the [len text + 1] loop heads [chunk_text] allows. *)
Lemma chunk_text_run text chunk_size overlap :
  0 <= overlap < chunk_size -> chunk_size * 4 < len text ->
  exists spans,
    chunk_spans text chunk_size overlap = Some spans /\
    chunk_text text chunk_size overlap = Some (map (span_text text) spans) /\
    run text (chunk_size * 4) (overlap * 4) 0 spans.
Proof.
  intros Hov Hlong. unfold chunk_spans, chunk_text, chunk_text_fuel.
  destruct (Z.leb_spec (len text) (chunk_size * 4)); [lia|].
  destruct (span_loop_run text (chunk_size * 4) (overlap * 4) ltac:(lia)
              (S (length text)) 0 []) as (spans & Hspans & Hrun);
    [unfold len in *; lia..|].
  exists spans. split; [done|]. split; [|done].
  change (@nil str) with (map (span_text text) []).
  by rewrite chunk_loop_spans, Hspans.
Qed.

Lemma chunk_text_default_eq content :
  chunk_text content CHUNK_SIZE CHUNK_OVERLAP = Some (chunk_text_default content).
Proof.
  unfold chunk_text_default.
  destruct (Z.le_gt_cases (len content) (CHUNK_SIZE * 4)) as [Hshort|Hlong].
  - by rewrite (proj2 (chunk_text_whole content _ CHUNK_OVERLAP Hshort)).
  - destruct (chunk_text_run content CHUNK_SIZE CHUNK_OVERLAP) as (spans & _ & -> & _);
      [done|lia|done].
Qed.

(** ** The claims about the chunker *)

(** C4. With [0 < overlap < chunk_size], [chunk_text] returns: the loop ends
    within [len text + 1] evaluations of its head.  When the loop runs (the
    text is longer than [chunk_size * 4]) the cursor of every iteration is
    strictly beyond the previous one, and the last chunk is the unstripped
    remainder [text[start:]] from a cursor inside the text, whatever its
    length.  A loop head reached with the cursor at or past the end of the
    text leaves the loop at once. *)
Theorem chunk_text_terminates text chunk_size overlap :
  0 < overlap < chunk_size ->
  exists spans,
    chunk_spans text chunk_size overlap = Some spans /\
    chunk_text text chunk_size overlap = Some (map (span_text text) spans) /\
    advancing spans /\
    (chunk_size * 4 < len text ->
     exists start,
       last spans = Some (Span start (len text) Remainder) /\
       0 <= start < len text /\ len text <= start + chunk_size * 4 /\
       last (map (span_text text) spans) = Some (slice_from text start) /\
       len (slice_from text start) = len text - start) /\
    (forall fuel start chunks,
       len text <= start ->
       chunk_loop (S fuel) text (chunk_size * 4) (overlap * 4) start chunks
       = Some chunks).
Proof.
  intros Hov.
  destruct (Z.le_gt_cases (len text) (chunk_size * 4)) as [Hshort|Hlong].
  - destruct (chunk_text_whole text chunk_size overlap Hshort) as [Hs Hc].
    eexists. split; [exact Hs|]. split; [exact Hc|]. split; [done|].
    split; [lia|]. intros. by apply chunk_loop_exit.
  - destruct (chunk_text_run text chunk_size overlap) as (spans & Hs & Hc & Hrun);
      [lia..|].
    exists spans. split; [done|]. split; [done|].
    assert (0 <= overlap * 4 < chunk_size * 4) as Hov' by lia.
    split; [by eapply run_advancing|].
    split; [|intros; by apply chunk_loop_exit].
    intros _. destruct (run_last _ _ _ Hov' _ _ Hrun) as (start & Hlast & Hstart & Hrem).
    exists start. rewrite last_map, Hlast. repeat split; try done; try lia.
    apply len_slice_from. lia.
Qed.

(** C5, as amended.  For [0 <= overlap < chunk_size] and a text longer than
    [chunk_size * 4] characters, the chunks are those of a [run] from cursor
    0: every iteration whose candidate end [cursor + chunk_size * 4] lies
    before the end of the text searches the window
    [[end - overlap * 4, end + overlap * 4)] - [overlap * 4] characters on
    each side of the candidate end - for the leftmost paragraph break, else
    the leftmost sentence break, else the leftmost line break, the match
    lying wholly inside the window; a paragraph or line break moves the
    cursor to the break, a sentence break to just after the period, and with
    no break the chunk ends at the candidate end and the cursor moves to
    [end - overlap * 4]. *)
Theorem chunk_text_steps text chunk_size overlap :
  0 <= overlap < chunk_size -> chunk_size * 4 < len text ->
  exists spans,
    chunk_spans text chunk_size overlap = Some spans /\
    chunk_text text chunk_size overlap = Some (map (span_text text) spans) /\
    run text (chunk_size * 4) (overlap * 4) 0 spans.
Proof. apply chunk_text_run. Qed.

(** C6. For [0 <= overlap < chunk_size], the intervals the chunks are cut
    from cover the text: the first starts at 0, each starts at or before the
    end of the previous one, the last ends at [len text], and every index of
    the text lies in one of them. *)
Theorem chunk_text_covers text chunk_size overlap :
  0 <= overlap < chunk_size ->
  exists spans,
    chunk_spans text chunk_size overlap = Some spans /\
    chunk_text text chunk_size overlap = Some (map (span_text text) spans) /\
    covers text spans.
Proof.
  intros Hov.
  destruct (Z.le_gt_cases (len text) (chunk_size * 4)) as [Hshort|Hlong].
  - destruct (chunk_text_whole text chunk_size overlap Hshort) as [Hs Hc].
    eexists. split; [exact Hs|]. split; [exact Hc|]. repeat split.
    + by eexists _, _.
    + by eexists.
    + intros i Hi. eexists. split; [apply list_elem_of_singleton; reflexivity|done].
  - destruct (chunk_text_run text chunk_size overlap) as (spans & Hs & Hc & Hrun);
      [lia..|].
    exists spans. split; [done|]. split; [done|].
    assert (0 <= overlap * 4 < chunk_size * 4) as Hov' by lia.
    destruct (run_head _ _ _ Hov' _ _ Hrun) as (sp & rest & -> & Hsp).
    repeat split.
    + exists sp, rest. repeat split; [done|].
      pose proof (run_linked _ _ _ Hov' _ _ 0 Hrun ltac:(lia)) as [_ Hl]. done.
    + destruct (run_last _ _ _ Hov' _ _ Hrun) as (start & Hlast & _). by eexists.
    + intros i Hi. exact (run_pointwise _ _ _ Hov' 0 _ i Hrun Hi).
Qed.

(** C10, as amended.  With [0 < overlap < chunk_size], no chunk is longer
    than the interval it was cut from; an interval ending at a break ends
    less than [overlap * 4] characters past the candidate end; a hard cut
    ends at the candidate end; the final remainder (and a text returned
    whole) is at most [chunk_size * 4] characters long.  Hence every chunk
    has at most [4 * (chunk_size + overlap)] characters. *)
Theorem chunk_lengths_bounded text chunk_size overlap :
  0 < overlap < chunk_size ->
  exists spans,
    chunk_spans text chunk_size overlap = Some spans /\
    chunk_text text chunk_size overlap = Some (map (span_text text) spans) /\
    Forall (span_bounded (chunk_size * 4) (overlap * 4)) spans /\
    Forall (fun sp => len (span_text text sp) <= span_stop sp - span_start sp) spans /\
    Forall (fun chunk => len chunk <= 4 * (chunk_size + overlap))
      (map (span_text text) spans).
Proof.
  intros Hov.
  destruct (Z.le_gt_cases (len text) (chunk_size * 4)) as [Hshort|Hlong].
  - destruct (chunk_text_whole text chunk_size overlap Hshort) as [Hs Hc].
    eexists. split; [exact Hs|]. split; [exact Hc|].
    repeat split; repeat constructor; unfold span_bounded, span_text; simpl; lia.
  - destruct (chunk_text_run text chunk_size overlap) as (spans & Hs & Hc & Hrun);
      [lia..|].
    exists spans. split; [done|]. split; [done|].
    assert (0 <= overlap * 4 < chunk_size * 4) as Hov' by lia.
    pose proof (run_bounded _ _ _ Hov' _ _ Hrun) as Hb.
    pose proof (run_inside _ _ _ Hov' _ _ Hrun) as Hi.
    assert (Hl : Forall (fun sp => len (span_text text sp)
                                   <= span_stop sp - span_start sp) spans).
    { eapply Forall_impl; [exact Hi|]. intros sp (? & ? & ? & ?).
      by apply len_span_text. }
    split; [done|]. split; [done|]. apply Forall_map.
    rewrite Forall_forall in Hb, Hi, Hl |- *. intros sp Hsp.
    specialize (Hb sp Hsp). specialize (Hl sp Hsp).
    destruct (Hi sp Hsp) as (? & ? & ? & ?).
    unfold span_bounded in Hb. simpl. destruct (span_cut sp); lia.
Qed.

Lemma chunk_text_terminates_witness :
  0 < 1 < 2 /\
  exists spans,
    chunk_text two_sentences 2 1 = Some (map (span_text two_sentences) spans) /\
    advancing spans.
Proof.
  split; [lia|].
  destruct (chunk_text_terminates two_sentences 2 1) as (spans & _ & Hc & Ha & _);
    [lia|].
  exists spans. split; [exact Hc|exact Ha].
Defined.

Lemma chunk_text_steps_witness :
  (0 <= 1 < 2 /\ 2 * 4 < len two_sentences) /\
  exists spans,
    chunk_text two_sentences 2 1 = Some (map (span_text two_sentences) spans) /\
    run two_sentences (2 * 4) (1 * 4) 0 spans.
Proof.
  split; [split; [lia|reflexivity]|].
  destruct (chunk_text_steps two_sentences 2 1) as (spans & _ & Hc & Hrun);
    [lia|reflexivity|].
  exists spans. split; [exact Hc|exact Hrun].
Defined.

(** C5, as stated, fails.  With [chunk_size = 4] and [overlap = 2] the first
    candidate end is offset 16.  Nothing the chunker looks for occurs within
    a window of width [overlap * 4 = 8] centred there, [[12, 20)], so the
    claim would have the chunk cut hard at 16; the loop finds the paragraph
    break at offset 21, inside [[16 - 8, 16 + 8)], and cuts there. *)
Lemma window_reaches_overlap_each_side :
  4 * 4 < len late_paragraph /\
  no_match late_paragraph [NL; NL] (16 - 4) (16 + 4) /\
  no_match late_paragraph [DOT; SPACE] (16 - 4) (16 + 4) /\
  no_match late_paragraph [NL] (16 - 4) (16 + 4) /\
  chunk_spans late_paragraph 4 2
  = Some [Span 0 21 AtParagraph; Span 21 32 Remainder] /\
  chunk_text late_paragraph 4 2
  = Some [repeat 97%N 21; [NL; NL] ++ repeat 97%N 9].
Proof.
  split; [reflexivity|].
  repeat split; try (apply find_none; [lia|lia|done|reflexivity]); reflexivity.
Qed.

Lemma chunk_text_covers_witness :
  0 <= 1 < 2 /\
  exists spans,
    chunk_text two_sentences 2 1 = Some (map (span_text two_sentences) spans) /\
    covers two_sentences spans.
Proof.
  split; [lia|].
  destruct (chunk_text_covers two_sentences 2 1) as (spans & _ & Hc & Hcov); [lia|].
  exists spans. split; [exact Hc|exact Hcov].
Defined.

Lemma chunk_lengths_bounded_witness :
  0 < 1 < 2 /\
  exists chunks,
    chunk_text two_sentences 2 1 = Some chunks /\
    Forall (fun chunk => len chunk <= 4 * (2 + 1)) chunks.
Proof.
  split; [lia|].
  destruct (chunk_lengths_bounded two_sentences 2 1) as (spans & _ & Hc & _ & _ & Hl);
    [lia|].
  exists (map (span_text two_sentences) spans). split; [exact Hc|exact Hl].
Defined.

(** C10, as stated, fails in its last part.  With [chunk_size = 2] and
    [overlap = 1], twelve characters without a break are cut hard at 8, the
    cursor goes back to 4, and the remainder [text[4:]] has exactly
    [4 * chunk_size = 8] characters: it is not shorter than that. *)
Lemma remainder_as_long_as_chunk_size :
  0 < 1 < 2 /\
  chunk_spans twelve 2 1 = Some [Span 0 8 HardCut; Span 4 12 Remainder] /\
  chunk_text twelve 2 1 = Some [repeat 97%N 8; repeat 97%N 8] /\
  ~ len (span_text twelve (Span 4 12 Remainder)) < 4 * 2.
Proof. split; [lia|]. repeat split. vm_compute. by intros [=]. Qed.

(** * Properties of the synchronisation *)

Lemma embeds_app evs1 evs2 : embeds (evs1 ++ evs2) = embeds evs1 ++ embeds evs2.
Proof.
  induction evs1 as [|[| | |] evs1 IH]; simpl; [done|done| |done|done].
  by rewrite IH.
Qed.

Lemma flushed_app evs1 evs2 : flushed (evs1 ++ evs2) = flushed evs1 ++ flushed evs2.
Proof.
  induction evs1 as [|[| | vectors [|] |] evs1 IH]; simpl; try done.
  by rewrite IH, app_assoc.
Qed.

Lemma flushed_elem v evs :
  v ∈ flushed evs -> exists vectors, Upsert vectors true ∈ evs /\ v ∈ vectors.
Proof.
  induction evs as [|c evs IH]; simpl; [by intros ?%elem_of_nil|].
  intros Hv.
  assert (v ∈ flushed evs -> exists vectors, Upsert vectors true ∈ c :: evs /\ v ∈ vectors)
    as Htail.
  { intros (vectors & ? & ?)%IH. exists vectors. split; [by right|done]. }
  destruct c as [| |vectors [|]|]; auto.
  apply elem_of_app in Hv as [Hv|Hv]; [|auto].
  exists vectors. split; [left|done].
Qed.

Lemma insert_vectors_app vs1 vs2 (m : gmap string Vector) :
  insert_vectors (vs1 ++ vs2) m = insert_vectors vs2 (insert_vectors vs1 m).
Proof. unfold insert_vectors. apply foldl_app. Qed.

Lemma lookup_insert_vectors vs (m : gmap string Vector) key :
  is_Some (insert_vectors vs m !! key) <-> key ∈ map v_id vs \/ is_Some (m !! key).
Proof.
  revert m. induction vs as [|v vs IH]; intros m; simpl.
  { split; [auto|]. intros [?%elem_of_nil|?]; done. }
  change (insert_vectors (v :: vs) m) with (insert_vectors vs (<[v_id v := v]> m)).
  rewrite IH, elem_of_cons, lookup_insert. destruct (decide (v_id v = key)) as [->|Hne].
  - split; [auto|]. intros _. right. by eexists.
  - split; [intros [?|?]; auto|]. intros [[?|?]|?]; auto. congruence.
Qed.

Lemma lookup_delete_all ids (m : gmap string Vector) key :
  foldr delete m ids !! key = if decide (key ∈ ids) then None else m !! key.
Proof.
  induction ids as [|id ids IH]; simpl.
  { destruct (decide (key ∈ [])) as [?%elem_of_nil|]; done. }
  rewrite lookup_delete. destruct (decide (id = key)) as [->|Hne].
  - rewrite decide_True; [done|left].
  - rewrite IH. destruct (decide (key ∈ ids)).
    + rewrite decide_True; [done|by right].
    + rewrite decide_False; [done|]. intros [?|?]%elem_of_cons; congruence.
Qed.

(** Identifiers under one prefix are told apart by their chunk number. *)
Lemma chunk_id_inj base_doc_id k1 k2 :
  chunk_id base_doc_id k1 = chunk_id base_doc_id k2 -> k1 = k2.
Proof.
  unfold chunk_id. intros H.
  apply (inj (String.app base_doc_id)) in H.
  apply (inj (String.app "-chunk-")) in H.
  by apply (inj pretty) in H.
Qed.

Section Sync.

Variables (env : Env) (metadata : Metadata) (base_doc_id : string) (total : nat).

Local Abbreviation made' := (made metadata base_doc_id total).

Lemma made_app i l1 l2 :
  made' i (l1 ++ l2) = made' i l1 ++ made' (i + length l1) l2.
Proof.
  revert i. induction l1 as [|[chunk [[|f values]|]] l1 IH]; intros i; simpl.
  - by rewrite Nat.add_0_r.
  - rewrite IH. do 2 f_equal. lia.
  - rewrite IH. do 3 f_equal. lia.
  - rewrite IH. do 2 f_equal. lia.
Qed.

Lemma made_elem i replies j chunk f values :
  replies !! j = Some (chunk, Some (f :: values)) ->
  vector_for metadata base_doc_id total (i + j) chunk (f :: values) ∈ made' i replies.
Proof.
  revert i j. induction replies as [|[c r] replies IH]; intros i j; [done|].
  destruct j as [|j]; simpl.
  - intros [= -> ->]. rewrite Nat.add_0_r. left.
  - intros Hj. replace (i + S j)%nat with (S i + j)%nat by lia.
    specialize (IH (S i) j Hj). destruct r as [[|]|]; [done| |done]. by right.
Qed.

Lemma made_ids i replies :
  Forall (fun r => usable r.2 = true) replies ->
  map v_id (made' i replies) = map (chunk_id base_doc_id) (seq (i + 1) (length replies)).
Proof.
  intros Hall. revert i. induction Hall as [|[c r] replies Hr _ IH]; intros i; [done|].
  destruct r as [[|f values]|]; [done| |done]. simpl. f_equal.
  rewrite IH. do 2 f_equal.
Qed.

Local Abbreviation loop_inv' := (loop_inv env metadata base_doc_id total).
Local Abbreviation file_inv' := (file_inv metadata base_doc_id total).

Lemma loop_inv_start w0 :
  loop_inv' w0 [] {| world := w0; vectors_to_upsert := []; success := true |} [].
Proof. split; simpl; try done. by rewrite app_nil_r. Qed.

Lemma loop_inv_step w0 done st evs chunk :
  loop_inv' w0 done st evs ->
  exists evs',
    loop_inv' w0 (done ++ [chunk])
      (index_chunk env metadata base_doc_id total (length done) chunk st) (evs ++ evs').
Proof.
  intros [Hcalls Hhash Hkinds Hin Hmade Hidx Hok].
  assert (Hlen : length (embeds evs) = length done).
  { by rewrite <- Hin, length_map. }
  unfold index_chunk, get_embedding.
  destruct (embeddings_create env (calls (world st)) chunk) as [[|f values]|] eqn:Hreply.
  - exists [Embed chunk (Some [])]. split; simpl.
    + by rewrite Hcalls, app_assoc.
    + done.
    + apply Forall_app. split; [done|]. by repeat constructor.
    + by rewrite embeds_app, map_app, Hin.
    + by rewrite embeds_app, made_app, flushed_app, Hmade, !app_nil_r.
    + by rewrite flushed_app, app_nil_r.
    + split; [done|]. intros [_ Hbad]%Forall_app. by inversion Hbad.
  - set (v := {| v_id := chunk_id base_doc_id (length done + 1);
                 v_values := f :: values;
                 v_metadata := {| cm_file := metadata; cm_chunk_index := length done + 1;
                                  cm_total_chunks := total; cm_text := chunk |} |}).
    assert (Hmade' : made' 0 (embeds (evs ++ [Embed chunk (Some (f :: values))]))
                     = flushed evs ++ (vectors_to_upsert st ++ [v])).
    { rewrite embeds_app, made_app, Hmade, Hlen, <- app_assoc. done. }
    destruct (100 <=? length (vectors_to_upsert st ++ [v]))%nat.
    + unfold index_upsert. simpl.
      destruct (pinecone_upsert env _ (vectors_to_upsert st ++ [v])) eqn:Hup.
      * exists [Embed chunk (Some (f :: values)); Upsert (vectors_to_upsert st ++ [v]) true].
        split; simpl.
        -- rewrite Hcalls, <- !app_assoc. done.
        -- done.
        -- apply Forall_app. split; [done|]. by repeat constructor.
        -- by rewrite embeds_app, map_app, Hin.
        -- rewrite embeds_app in Hmade' |- *. simpl in *.
           rewrite Hmade', flushed_app. simpl. by rewrite !app_nil_r.
        -- rewrite flushed_app. simpl.
           by rewrite app_nil_r, (insert_vectors_app (flushed evs)), Hidx.
        -- rewrite Hok, Forall_app. split; [intros ?; split; [done|by repeat constructor]|].
           by intros [? _].
      * exists [Embed chunk (Some (f :: values)); Upsert (vectors_to_upsert st ++ [v]) false].
        split; simpl.
        -- rewrite Hcalls, <- !app_assoc. done.
        -- done.
        -- apply Forall_app. split; [done|]. by repeat constructor.
        -- by rewrite embeds_app, map_app, Hin.
        -- rewrite embeds_app in Hmade' |- *. simpl in *.
           rewrite Hmade', flushed_app. simpl. by rewrite !app_nil_r.
        -- by rewrite flushed_app, app_nil_r.
        -- split; [done|]. intros [_ Hbad]%Forall_app.
           inversion Hbad as [|?? _ Hbad']. by inversion Hbad'.
    + exists [Embed chunk (Some (f :: values))]. split; simpl.
      * by rewrite Hcalls, app_assoc.
      * done.
      * apply Forall_app. split; [done|]. by repeat constructor.
      * by rewrite embeds_app, map_app, Hin.
      * rewrite Hmade', flushed_app. simpl. by rewrite app_nil_r.
      * by rewrite flushed_app, app_nil_r.
      * rewrite Hok, Forall_app. split; [intros ?; split; [done|by repeat constructor]|].
        by intros [? _].
  - exists [Embed chunk None]. split; simpl.
    + by rewrite Hcalls, app_assoc.
    + done.
    + apply Forall_app. split; [done|]. by repeat constructor.
    + by rewrite embeds_app, map_app, Hin.
    + by rewrite embeds_app, made_app, flushed_app, Hmade, !app_nil_r.
    + by rewrite flushed_app, app_nil_r.
    + split; [done|]. intros [_ Hbad]%Forall_app. by inversion Hbad.
Qed.

Lemma loop_inv_chunks w0 chunks : forall done st evs,
  loop_inv' w0 done st evs ->
  exists evs',
    loop_inv' w0 (done ++ chunks)
      (index_chunks env metadata base_doc_id total (length done) chunks st) (evs ++ evs').
Proof.
  induction chunks as [|chunk chunks IH]; intros done st evs Hinv; simpl.
  { exists []. by rewrite !app_nil_r. }
  destruct (loop_inv_step _ _ _ _ chunk Hinv) as (evs1 & Hinv1).
  destruct (IH _ _ _ Hinv1) as (evs2 & Hinv2).
  exists (evs1 ++ evs2). rewrite length_app, Nat.add_1_r in Hinv2.
  rewrite <- !app_assoc in Hinv2. exact Hinv2.
Qed.

Lemma file_inv_flush w0 done st evs :
  loop_inv' w0 done st evs ->
  exists evs', file_inv' w0 done (upsert_remaining env st) (evs ++ evs').
Proof.
  intros [Hcalls Hhash Hkinds Hin Hmade Hidx Hok]. unfold upsert_remaining.
  destruct (vectors_to_upsert st) as [|v0 pending] eqn:Hpending.
  { exists []. rewrite !app_nil_r in *. split; try done.
    rewrite Hmade. intros v (vectors & ? & ?)%flushed_elem. by exists vectors, true. }
  unfold index_upsert. simpl.
  assert (Hsent : forall ok v, v ∈ made' 0 (embeds (evs ++ [Upsert (v0 :: pending) ok])) ->
            exists vectors ok', Upsert vectors ok' ∈ evs ++ [Upsert (v0 :: pending) ok]
                                /\ v ∈ vectors).
  { intros ok v. rewrite embeds_app. simpl. rewrite app_nil_r, Hmade.
    intros [(vectors & ? & ?)%flushed_elem|Hv]%elem_of_app.
    - exists vectors, true. split; [|done]. apply elem_of_app. by left.
    - exists (v0 :: pending), ok. split; [|done]. apply elem_of_app. right. left. }
  destruct (pinecone_upsert env (calls (world st)) (v0 :: pending)) eqn:Hup.
  - exists [Upsert (v0 :: pending) true]. split; simpl.
    + by rewrite Hcalls, app_assoc.
    + done.
    + apply Forall_app. split; [done|]. by repeat constructor.
    + rewrite embeds_app. simpl. by rewrite app_nil_r.
    + rewrite Hok, Forall_app. split; [intros ?; split; [done|by repeat constructor]|].
      by intros [? _].
    + apply Hsent.
    + intros _. rewrite embeds_app, flushed_app. simpl. rewrite !app_nil_r.
      split; [done|]. by rewrite (insert_vectors_app (flushed evs)), Hidx.
  - exists [Upsert (v0 :: pending) false]. split; simpl; try done.
    + by rewrite Hcalls, app_assoc.
    + apply Forall_app. split; [done|]. by repeat constructor.
    + rewrite embeds_app. simpl. by rewrite app_nil_r.
    + split; [done|]. intros [_ Hbad]%Forall_app. by inversion Hbad.
    + apply Hsent.
Qed.

(** The loop and the final flush together, from a fresh loop state. *)
Lemma file_inv_run w0 chunks :
  exists evs,
    file_inv' w0 chunks
      (upsert_remaining env
         (index_chunks env metadata base_doc_id total 0 chunks
            {| world := w0; vectors_to_upsert := []; success := true |})) evs.
Proof.
  destruct (loop_inv_chunks w0 chunks [] _ [] (loop_inv_start w0)) as (evs1 & Hloop).
  destruct (file_inv_flush _ _ _ _ Hloop) as (evs2 & Hfin).
  by exists (evs1 ++ evs2).
Qed.

End Sync.

(** [index_file] ends in one of the five ways of [outcome]. *)
Lemma index_file_outcome env file_path force_update w :
  outcome env file_path force_update w (index_file env file_path force_update w).
Proof.
  unfold index_file.
  destruct (should_index_file file_path) eqn:Hfilter; simpl; [|by constructor].
  destruct (readable env file_path) eqn:Hread; simpl; [|by constructor].
  destruct (negb force_update
            && bool_decide (load_file_hashes w !! file_path
                            = Some (get_file_hash env file_path))) eqn:Hskip.
  { apply andb_prop in Hskip as [Hforce Hsame].
    apply out_unchanged; [done|done|by destruct force_update|].
    by apply bool_decide_eq_true in Hsame. }
  assert (reindexed env w file_path force_update) as Hre.
  { split; [done|]. split; [done|]. destruct force_update; [by left|right].
    simpl in Hskip. by apply bool_decide_eq_false in Hskip. }
  destruct (read_file_content env file_path) as [|c content] eqn:Hcontent.
  { by apply out_no_content. }
  destruct (file_inv_run env (create_metadata env file_path)
              (doc_id_prefix (md_file_type (create_metadata env file_path))
                 (md_file_name (create_metadata env file_path)))
              (length (chunk_text_default (c :: content)))
              (delete_file_vectors env file_path w)
              (chunk_text_default (c :: content))) as (evs & Hfin).
  rewrite <- Hcontent in *.
  refine (out_indexed _ _ _ _ _ evs Hre _ Hfin). by rewrite Hcontent.
Qed.

(** [delete_file_vectors] makes one call, for the 49 identifiers. *)
Lemma delete_file_vectors_eq env file_path w :
  delete_file_vectors env file_path w = index_delete env (ids_to_delete file_path) w.
Proof. reflexivity. Qed.

Lemma failed_embeds evs :
  Forall (fun c => failed c = false) evs ->
  Forall (fun r => usable r.2 = true) (embeds evs).
Proof.
  induction 1 as [|[| chunk reply | |] evs Hc _ IH]; simpl; try done.
  constructor; [|done]. simpl in *. by destruct (usable reply).
Qed.

Lemma embeds_lookup_inputs evs (chunks : list str) i chunk :
  map fst (embeds evs) = chunks -> chunks !! i = Some chunk ->
  exists reply, embeds evs !! i = Some (chunk, reply).
Proof.
  intros <-. revert i. induction (embeds evs) as [|[c r] l IH]; intros [|i]; simpl;
    try done.
  - intros [= ->]. by eexists.
  - apply IH.
Qed.

(** How the ledger write at the end of a fully successful file ends. *)
Lemma after_save_spec env hashes w ok w' :
  after_save (save_file_hashes env hashes w) = (ok, w') ->
  ok = match ledger_write env (calls w) hashes with
       | DirFailed => Raised
       | Saved | OpenFailed | DumpFailed => Returned true
       end /\
  calls w' = calls w ++ [SaveHashes hashes (ledger_write env (calls w) hashes)] /\
  index w' = index w /\
  hash_file w' = match ledger_write env (calls w) hashes with
                 | Saved => Some hashes
                 | DumpFailed => None
                 | OpenFailed | DirFailed => hash_file w
                 end.
Proof. by intros [= <- <-]. Qed.

(** Some codec always decodes: the fallback of [read_file_content], the
    empty string "for a file no codec decodes", is never reached. *)
Lemma some_codec_decodes env file_path :
  exists enc, enc ∈ encodings /\
    decode env enc (file_bytes env file_path) = Some (read_file_content env file_path).
Proof.
  unfold read_file_content, encodings. cbn [read_with decode].
  destruct (decode_utf8 env (file_bytes env file_path)) as [content|] eqn:Hutf8.
  - exists UTF8. split; [left|done].
  - exists LATIN1. split; [right; left|done].
Qed.

(** ** The claims about the synchronisation *)

(** C3. A file that passes the filter, can be opened, and whose digest
    equals the ledger entry is left alone by a non-forced [index_file]: the
    result is [True] and the world - ledger, store and record of calls - is
    unchanged; the directory loop counts it as a success and goes on with
    the same world. *)
Theorem unchanged_file_untouched env w file_path :
  should_index_file file_path = true ->
  readable env file_path = true ->
  load_file_hashes w !! file_path = Some (get_file_hash env file_path) ->
  index_file env file_path false w = (Returned true, w) /\
  forall files t,
    index_files env false (file_path :: files) w t
    = index_files env false files w (tally_file true t).
Proof.
  intros Hfilter Hread Hsame.
  assert (index_file env file_path false w = (Returned true, w)) as Heq.
  { unfold index_file. rewrite Hfilter, Hread. simpl.
    by rewrite bool_decide_eq_true_2. }
  split; [done|]. intros files t. simpl. by rewrite Heq.
Qed.


(** C7. For a file that reaches the embedding phase, every chunk is
    submitted to the provider, in order, whatever the replies to the earlier
    ones; an unusable reply makes the result [False] and leaves the ledger
    file as it was; and every chunk with a usable reply is part of some
    upsert request. *)
Theorem embedding_failure_does_not_abort env w file_path force_update :
  reindexed env w file_path force_update ->
  read_file_content env file_path <> [] ->
  exists ok w' evs,
    index_file env file_path force_update w = (ok, w') /\
    calls w' = calls w ++ evs /\
    map fst (embeds evs) = chunk_text_default (read_file_content env file_path) /\
    ((exists r, r ∈ embeds evs /\ usable r.2 = false) ->
     ok = Returned false /\ hash_file w' = hash_file w) /\
    forall i chunk f values,
      embeds evs !! i = Some (chunk, Some (f :: values)) ->
      exists vectors sent,
        Upsert vectors sent ∈ evs /\
        vector_for (create_metadata env file_path)
          (doc_id_prefix (md_file_type (create_metadata env file_path))
             (md_file_name (create_metadata env file_path)))
          (length (chunk_text_default (read_file_content env file_path)))
          i chunk (f :: values) ∈ vectors.
Proof.
  intros Hre Hcontent.
  destruct (index_file env file_path force_update w) as [ok w'] eqn:Heq.
  pose proof (index_file_outcome env file_path force_update w) as Hout.
  rewrite Heq in Hout. exists ok, w'.
  inversion Hout as [Hfilter|Hfilter Hunread|Hfilter _ Hforce Hsame|_ Hnone
                    |st evs _ _ Hfin Hres]; subst.
  - destruct Hre as [? _]. congruence.
  - destruct Hre as (_ & ? & _). congruence.
  - destruct Hre as (_ & _ & [?|?]); [congruence|done].
  - done.
  - destruct Hfin as [Hcalls Hhash Hkinds Hin Hok Hsent Hidx].
    rewrite delete_file_vectors_eq in Hcalls, Hhash. simpl in Hcalls, Hhash.
    set (del := Delete (ids_to_delete file_path)
                  (pinecone_delete env (calls w) (ids_to_delete file_path))) in *.
    assert (Hsent' : forall tail i chunk f values,
      embeds (del :: evs ++ tail) !! i = Some (chunk, Some (f :: values)) ->
      embeds tail = [] ->
      exists vectors sent,
        Upsert vectors sent ∈ del :: evs ++ tail /\
        vector_for (create_metadata env file_path)
          (doc_id_prefix (md_file_type (create_metadata env file_path))
             (md_file_name (create_metadata env file_path)))
          (length (chunk_text_default (read_file_content env file_path)))
          i chunk (f :: values) ∈ vectors).
    { intros tail i chunk f values Hi Htail. simpl in Hi.
      rewrite embeds_app, Htail, app_nil_r in Hi.
      destruct (Hsent _ (made_elem _ _ _ 0 _ _ _ _ _ Hi)) as (vectors & sent & ? & ?).
      exists vectors, sent. split; [|done]. right. apply elem_of_app. by left. }
    destruct (success st) eqn:Hsuccess.
    + apply after_save_spec in Hres as (-> & Hcalls' & _ & _).
      set (new := <[file_path := get_file_hash env file_path]> (load_file_hashes w)) in *.
      set (outcome := ledger_write env (calls (world st)) new) in *.
      exists (del :: evs ++ [SaveHashes new outcome]).
      split; [done|]. split; [by rewrite Hcalls', Hcalls, <- !app_assoc|].
      split; [simpl; by rewrite embeds_app, app_nil_r|]. split.
      * intros ((chunk & reply) & Hr & Hbad). exfalso.
        simpl in Hr. rewrite embeds_app, app_nil_r in Hr.
        pose proof (failed_embeds _ (proj1 Hok eq_refl)) as Hall.
        rewrite Forall_forall in Hall. specialize (Hall _ Hr). congruence.
      * intros i chunk f values Hi. by apply (Hsent' [SaveHashes new outcome]).
    + injection Hres as <- <-. exists (del :: evs). simpl.
      split; [done|]. split; [by rewrite Hcalls, <- app_assoc|].
      split; [done|]. split; [done|].
      intros i chunk f values Hi. specialize (Hsent' [] i chunk f values).
      rewrite app_nil_r in Hsent'. by apply Hsent'.
Qed.

(** C2, as amended.  The ledger is written only at the end of a call for
    which nothing failed: if any embedding reply was unusable or any upsert
    raised, the result is [False], no write is attempted and the ledger file
    is what it was; it is also what it was whenever [save_file_hashes] was
    not called.  When [save_file_hashes] was called, it was handed the old
    mapping with this file's current digest, no call had failed, and every
    chunk of the file had a usable embedding and is part of an upsert the
    store accepted; what the ledger file then holds, and what [index_file]
    answers, is decided by how the write ended.  After a [False] the ledger
    file is as before, so the next non-forced call re-indexes the file
    exactly if a non-forced call would have re-indexed it before. *)
Theorem ledger_updated_only_on_full_success env w file_path force_update :
  exists ok w' evs,
    index_file env file_path force_update w = (ok, w') /\
    calls w' = calls w ++ evs /\
    ((exists c, c ∈ evs /\ failed c = true) ->
     ok = Returned false /\ hash_file w' = hash_file w /\
     forall hashes outcome, SaveHashes hashes outcome ∉ evs) /\
    ((forall hashes outcome, SaveHashes hashes outcome ∉ evs) ->
     hash_file w' = hash_file w) /\
    (forall hashes outcome, SaveHashes hashes outcome ∈ evs ->
     hashes = <[file_path := get_file_hash env file_path]> (load_file_hashes w) /\
     ok = match outcome with
          | DirFailed => Raised
          | Saved | OpenFailed | DumpFailed => Returned true
          end /\
     hash_file w' = match outcome with
                    | Saved => Some hashes
                    | DumpFailed => None
                    | OpenFailed | DirFailed => hash_file w
                    end /\
     Forall (fun c => failed c = false) evs /\
     map fst (embeds evs) = chunk_text_default (read_file_content env file_path) /\
     forall i chunk,
       chunk_text_default (read_file_content env file_path) !! i = Some chunk ->
       exists f values vectors,
         embeds evs !! i = Some (chunk, Some (f :: values)) /\
         Upsert vectors true ∈ evs /\
         vector_for (create_metadata env file_path)
           (doc_id_prefix (md_file_type (create_metadata env file_path))
              (md_file_name (create_metadata env file_path)))
           (length (chunk_text_default (read_file_content env file_path)))
           i chunk (f :: values) ∈ vectors) /\
    (ok = Returned false ->
     hash_file w' = hash_file w /\
     (reindexed env w' file_path false <-> reindexed env w file_path false)).
Proof.
  assert (Hnext : forall w', hash_file w' = hash_file w ->
            hash_file w' = hash_file w /\
            (reindexed env w' file_path false <-> reindexed env w file_path false)).
  { intros w' Hsame. split; [done|]. unfold reindexed, load_file_hashes.
    by rewrite Hsame. }
  destruct (index_file env file_path force_update w) as [ok w'] eqn:Heq.
  pose proof (index_file_outcome env file_path force_update w) as Hout.
  rewrite Heq in Hout. exists ok, w'.
  inversion Hout as [Hfilter|Hfilter Hunread|Hfilter _ Hforce Hsame|Hre _
                    |st evs _ _ Hfin Hres]; subst.
  - exists []. rewrite app_nil_r. split; [done|]. split; [done|].
    split; [by intros (c & ?%elem_of_nil & _)|]. split; [done|].
    split; [by intros hashes outcome ?%elem_of_nil|]. intros _. by apply Hnext.
  - exists []. rewrite app_nil_r. split; [done|]. split; [done|].
    split; [by intros (c & ?%elem_of_nil & _)|]. split; [done|].
    split; [by intros hashes outcome ?%elem_of_nil|]. done.
  - exists []. rewrite app_nil_r. split; [done|]. split; [done|].
    split; [by intros (c & ?%elem_of_nil & _)|]. split; [done|].
    split; [by intros hashes outcome ?%elem_of_nil|]. done.
  - exists [Delete (ids_to_delete file_path)
              (pinecone_delete env (calls w) (ids_to_delete file_path))].
    split; [done|]. split; [done|].
    split; [by intros (c & ->%list_elem_of_singleton & ?)|]. split; [done|].
    split; [by intros hashes outcome [=]%list_elem_of_singleton|].
    intros _. by apply Hnext.
  - destruct Hfin as [Hcalls Hhash Hkinds Hin Hok Hsent Hidx].
    rewrite delete_file_vectors_eq in Hcalls, Hhash. simpl in Hcalls, Hhash.
    set (del := Delete (ids_to_delete file_path)
                  (pinecone_delete env (calls w) (ids_to_delete file_path))) in *.
    assert (Hnosave : forall hashes outcome, SaveHashes hashes outcome ∉ del :: evs).
    { intros hashes outcome [[=]|Hsave]%elem_of_cons.
      rewrite Forall_forall in Hkinds. by destruct (Hkinds _ Hsave). }
    destruct (success st) eqn:Hsuccess.
    + apply after_save_spec in Hres as (-> & Hcalls' & _ & Hhash').
      rewrite Hhash in Hhash'.
      pose proof (proj1 Hok eq_refl) as Hgood.
      set (new := <[file_path := get_file_hash env file_path]> (load_file_hashes w)) in *.
      set (outcome := ledger_write env (calls (world st)) new) in *.
      assert (Forall (fun c => failed c = false) (del :: evs ++ [SaveHashes new outcome]))
        as Hall.
      { constructor; [done|]. apply Forall_app. split; [done|]. by repeat constructor. }
      exists (del :: evs ++ [SaveHashes new outcome]). split; [done|].
      split; [by rewrite Hcalls', Hcalls, <- !app_assoc|].
      split; [|split; [|split]].
      * intros (c & Hc & Hbad). rewrite Forall_forall in Hall.
        specialize (Hall c Hc). congruence.
      * intros Hnone. destruct (Hnone new outcome).
        right. apply elem_of_app. right. left.
      * intros hashes outcome' Hsave.
        assert (hashes = new /\ outcome' = outcome) as [-> ->].
        { apply elem_of_cons in Hsave as [[=]|Hsave].
          apply elem_of_app in Hsave as [Hsave|Hsave].
          - rewrite Forall_forall in Hkinds. by destruct (Hkinds _ Hsave).
          - by apply list_elem_of_singleton in Hsave as [= -> ->]. }
        split; [done|]. split; [done|]. split; [done|]. split; [done|].
        simpl. rewrite embeds_app. simpl. rewrite app_nil_r. split; [done|].
        intros i chunk Hi.
        destruct (embeds_lookup_inputs _ _ _ _ Hin Hi) as (reply & Hreply).
        pose proof (failed_embeds _ Hgood) as Husable.
        rewrite Forall_forall in Husable.
        specialize (Husable _ (list_elem_of_lookup_2 _ _ _ Hreply)).
        destruct reply as [[|f values]|]; [done| |done].
        pose proof (made_elem (create_metadata env file_path)
                      (doc_id_prefix (md_file_type (create_metadata env file_path))
                         (md_file_name (create_metadata env file_path)))
                      (length (chunk_text_default (read_file_content env file_path)))
                      0 _ _ _ _ _ Hreply) as Hv.
        destruct (Hidx eq_refl) as [Hmade _]. rewrite Hmade in Hv.
        apply flushed_elem in Hv as (vectors & Hup & Hv).
        exists f, values, vectors. split; [done|]. split; [|done].
        right. apply elem_of_app. by left.
      * by destruct outcome.
    + injection Hres as <- <-. exists (del :: evs). simpl. split; [done|].
      split; [by rewrite Hcalls, <- app_assoc|].
      split; [done|]. split; [done|].
      split; [intros hashes outcome Hsave; by destruct (Hnosave hashes outcome)|].
      intros _. by apply Hnext.
Qed.

(** X17. What [index_file] does for the identifiers of a file that gets
    past the filter and the hash check (changed, never indexed, or forced): one
    delete call, for the identifiers [delete_file_vectors] works out, comes
    before every other call, and no second one follows.  Where the delete
    is accepted, the store held no [prefix-chunk-k] beforehand that the
    delete call does not name, and [index_file] answers [True], the
    identifiers [prefix-chunk-k] in the store afterwards are exactly those
    with [1 <= k <= N], [N] the number of chunks of the new content. *)
Theorem reindex_replaces_chunk_ids env w file_path force_update :
  reindexed env w file_path force_update ->
  exists evs,
    calls (index_file env file_path force_update w).2
    = calls w
      ++ Delete (ids_to_delete file_path)
           (pinecone_delete env (calls w) (ids_to_delete file_path)) :: evs /\
    Forall (fun c => is_delete c = false) evs /\
    (pinecone_delete env (calls w) (ids_to_delete file_path) = true ->
     (forall k,
        is_Some (index w !! chunk_id
                   (doc_id_prefix (md_file_type (create_metadata env file_path))
                      (md_file_name (create_metadata env file_path))) k) ->
        chunk_id
          (doc_id_prefix (md_file_type (create_metadata env file_path))
             (md_file_name (create_metadata env file_path))) k
        ∈ ids_to_delete file_path) ->
     (index_file env file_path force_update w).1 = Returned true ->
     chunk_ids_exactly (index_file env file_path force_update w).2
       (doc_id_prefix (md_file_type (create_metadata env file_path))
          (md_file_name (create_metadata env file_path)))
       (length (chunk_text_default (read_file_content env file_path)))).
Proof.
  intros Hre.
  set (base := doc_id_prefix (md_file_type (create_metadata env file_path))
                 (md_file_name (create_metadata env file_path))) in *.
  destruct (index_file env file_path force_update w) as [ok w'] eqn:Heq.
  pose proof (index_file_outcome env file_path force_update w) as Hout.
  rewrite Heq in Hout. cbn [fst snd].
  inversion Hout as [Hfilter|Hfilter Hunread|Hfilter _ Hforce Hsame|_ Hnone
                    |st evs _ _ Hfin Hres]; subst.
  - destruct Hre as [? _]. congruence.
  - destruct Hre as (_ & ? & _). congruence.
  - destruct Hre as (_ & _ & [?|?]); [congruence|done].
  - exists []. split; [done|]. split; [done|]. by intros _ _ [=].
  - destruct Hfin as [Hcalls Hhash Hkinds Hin Hok Hsent Hidx].
    rewrite delete_file_vectors_eq in Hcalls, Hidx. unfold index_delete in Hcalls, Hidx.
    cbn [calls index hash_file] in Hcalls, Hidx.
    assert (Hrest : Forall (fun c => is_delete c = false) evs).
    { eapply Forall_impl; [exact Hkinds|]. by intros c [? _]. }
    destruct (success st) eqn:Hsuccess.
    2:{ injection Hres as <- <-. exists evs.
        split; [by rewrite Hcalls, <- !app_assoc|]. split; [done|]. by intros _ _ [=]. }
    apply after_save_spec in Hres as (-> & Hcalls' & Hindex' & _).
    set (new := <[file_path := get_file_hash env file_path]> (load_file_hashes w)) in *.
    set (outcome := ledger_write env (calls (world st)) new) in *.
    exists (evs ++ [SaveHashes new outcome]).
    split; [by rewrite Hcalls', Hcalls, <- !app_assoc|].
    split; [apply Forall_app; split; [done|by repeat constructor]|].
    intros Hdelete Hceiling _.
    rewrite Hdelete in Hidx.
    destruct (Hidx eq_refl) as [Hmade Hindex].
    pose proof (failed_embeds _ (proj1 Hok eq_refl)) as Husable.
    pose proof (made_ids (create_metadata env file_path) base
                  (length (chunk_text_default (read_file_content env file_path)))
                  0 _ Husable) as Hmade_ids.
    fold base in Hmade. rewrite Hmade in Hmade_ids.
    assert (length (embeds evs)
            = length (chunk_text_default (read_file_content env file_path))) as Hlen.
    { by rewrite <- Hin, length_map. }
    rewrite Hlen in Hmade_ids. change (0 + 1)%nat with 1%nat in Hmade_ids.
    intros k. rewrite Hindex', Hindex.
    rewrite lookup_insert_vectors, Hmade_ids, lookup_delete_all.
    split.
    + intros [Hnew|Hold].
      * apply list_elem_of_In, in_map_iff in Hnew as (k' & Hk' & Hin').
        apply chunk_id_inj in Hk' as ->. apply in_seq in Hin'. lia.
      * destruct (decide (chunk_id base k ∈ ids_to_delete file_path)) as [|Hnot];
          [by destruct Hold|].
        destruct Hnot. by apply Hceiling.
    + intros Hk. left. apply list_elem_of_In, in_map, in_seq. lia.
Qed.

(** C9. A text of at most [chunk_size * 4] characters comes back as the one
    chunk [[text]], untouched, whatever the overlap; and the loop of
    [index_file] gives the record of that single chunk the identifier
    [prefix-chunk-1]. *)
Theorem short_text_single_chunk text chunk_size overlap :
  len text <= chunk_size * 4 ->
  chunk_text text chunk_size overlap = Some [text] /\
  forall env metadata base_doc_id w f values,
    embeddings_create env (calls w) text = Some (f :: values) ->
    map v_id
      (vectors_to_upsert
         (index_chunks env metadata base_doc_id 1 0 [text]
            {| world := w; vectors_to_upsert := []; success := true |}))
    = [(base_doc_id +:+ "-chunk-1")%string].
Proof.
  intros Hshort. split; [by apply chunk_text_whole|].
  intros env metadata base_doc_id w f values Hreply.
  cbn [index_chunks]. unfold index_chunk, get_embedding. cbn [world].
  rewrite Hreply. reflexivity.
Qed.

Lemma short_text_single_chunk_witness :
  len fifty <= CHUNK_SIZE * 4 /\
  chunk_text fifty CHUNK_SIZE CHUNK_OVERLAP = Some [fifty].
Proof.
  split; [by vm_compute|].
  apply (short_text_single_chunk fifty CHUNK_SIZE CHUNK_OVERLAP). by vm_compute.
Defined.

(** * Further properties of the chunker *)

Lemma occurs_head text sub c rest j :
  sub = c :: rest -> occurs text sub j -> c ∈ text.
Proof.
  intros -> [Hj Hocc]. simpl in Hocc.
  destruct (drop (Z.to_nat j) text) as [|d l] eqn:Hd; [done|].
  injection Hocc as -> _.
  apply (list_elem_of_lookup_2 text (Z.to_nat j)).
  rewrite <- (Nat.add_0_r (Z.to_nat j)), <- lookup_drop, Hd. done.
Qed.

(** A text without newline and without period offers no break: every
    iteration is a hard cut. *)
Lemma step_break_free text char_size char_overlap start sp next :
  NL ∉ text -> DOT ∉ text ->
  step text char_size char_overlap start sp next ->
  sp = Span start (start + char_size) HardCut /\ next = start + char_size - char_overlap.
Proof.
  intros Hnl Hdot Hstep.
  destruct Hstep as [p (_ & _ & Hocc & _)|p _ (_ & _ & Hocc & _)
                    |p _ _ (_ & _ & Hocc & _)|_ _ _]; [..|done].
  - destruct Hnl. by eapply occurs_head.
  - destruct Hdot. by eapply occurs_head.
  - destruct Hnl. by eapply occurs_head.
Qed.

Lemma run_break_free text char_size char_overlap start spans :
  NL ∉ text -> DOT ∉ text ->
  run text char_size char_overlap start spans ->
  exists m : nat,
    spans = map (window char_size (char_size - char_overlap) start) (seq 0 m)
            ++ [Span (start + Z.of_nat m * (char_size - char_overlap)) (len text) Remainder] /\
    len text <= start + Z.of_nat m * (char_size - char_overlap) + char_size /\
    (forall k, (k < m)%nat ->
       start + Z.of_nat k * (char_size - char_overlap) + char_size < len text).
Proof.
  intros Hnl Hdot Hrun.
  induction Hrun as [start|start sp next rest Hstart Hend Hstep Hrun IH].
  - exists 0%nat. change (Z.of_nat 0) with 0. rewrite Z.mul_0_l, Z.add_0_r.
    split; [done|]. split; [lia|]. intros; lia.
  - destruct (step_break_free _ _ _ _ _ _ Hnl Hdot Hstep) as [-> ->].
    destruct IH as (m & -> & Hlast & Hbefore).
    exists (S m). split; [|split].
    + cbn [seq map app]. f_equal.
      { unfold window. f_equal; lia. }
      rewrite <- seq_shift, map_map. f_equal; [|do 2 f_equal; lia].
      apply map_ext. intros k. unfold window. f_equal; lia.
    + lia.
    + intros [|k] Hk; [lia|]. specialize (Hbefore k ltac:(lia)). lia.
Qed.

Lemma len_repeat (c : N) n : len (repeat c n) = Z.of_nat n.
Proof. unfold len. by rewrite repeat_length. Qed.

Lemma drop_repeat (c : N) n k : drop k (repeat c n) = repeat c (n - k).
Proof.
  revert k. induction n as [|n IH]; intros [|k]; simpl; auto.
Qed.

Lemma take_repeat (c : N) n k : take k (repeat c n) = repeat c (Nat.min k n).
Proof.
  revert k. induction n as [|n IH]; intros [|k]; simpl; auto. by rewrite IH.
Qed.

Lemma slice_repeat (c : N) n a b :
  0 <= a <= b -> b <= Z.of_nat n ->
  slice (repeat c n) a b = repeat c (Z.to_nat (b - a)).
Proof.
  intros Ha Hb. unfold slice. rewrite len_repeat, !clamp_inside by lia.
  rewrite drop_repeat, take_repeat. f_equal. lia.
Qed.

Lemma slice_from_repeat (c : N) n a :
  0 <= a <= Z.of_nat n ->
  slice_from (repeat c n) a = repeat c (Z.to_nat (Z.of_nat n - a)).
Proof.
  intros Ha. unfold slice_from. rewrite len_repeat, clamp_inside by lia.
  rewrite drop_repeat. f_equal. lia.
Qed.

Lemma lstrip_repeat c n : isspace c = false -> lstrip (repeat c n) = repeat c n.
Proof. intros Hc. destruct n; simpl; [done|]. by rewrite Hc. Qed.

Lemma rev_repeat' (c : N) n : rev (repeat c n) = repeat c n.
Proof.
  induction n as [|n IH]; [done|]. simpl. rewrite IH.
  clear IH. induction n as [|n IH]; [done|]. simpl. by rewrite IH.
Qed.

Lemma strip_repeat c n : isspace c = false -> strip (repeat c n) = repeat c n.
Proof.
  intros Hc. unfold strip, rstrip.
  by rewrite (lstrip_repeat c n Hc), rev_repeat', (lstrip_repeat c n Hc), rev_repeat'.
Qed.

Lemma not_elem_of_repeat (c d : N) n : c <> d -> d ∉ repeat c n.
Proof.
  intros Hne Hin. apply list_elem_of_In, repeat_spec in Hin. congruence.
Qed.

(** The chunks of [n] copies of one letter. *)
Lemma chunk_text_repeat c n chunk_size overlap :
  isspace c = false -> c <> NL -> c <> DOT ->
  0 <= overlap < chunk_size -> chunk_size * 4 < Z.of_nat n ->
  exists m : nat,
    chunk_text (repeat c n) chunk_size overlap
    = Some (map (fun _ => repeat c (Z.to_nat (chunk_size * 4))) (seq 0 m)
            ++ [repeat c (Z.to_nat (Z.of_nat n - Z.of_nat m * ((chunk_size - overlap) * 4)))]) /\
    Z.of_nat n <= Z.of_nat m * ((chunk_size - overlap) * 4) + chunk_size * 4 /\
    (forall k, (k < m)%nat ->
       Z.of_nat k * ((chunk_size - overlap) * 4) + chunk_size * 4 < Z.of_nat n).
Proof.
  intros Hspace Hnl Hdot Hov Hlong.
  destruct (chunk_text_run (repeat c n) chunk_size overlap Hov) as (spans & _ & Hc & Hrun).
  { by rewrite len_repeat. }
  destruct (run_break_free _ _ _ _ _ (not_elem_of_repeat c NL n Hnl)
              (not_elem_of_repeat c DOT n Hdot) Hrun) as (m & -> & Hlast & Hbefore).
  rewrite len_repeat in Hlast, Hbefore.
  replace (chunk_size * 4 - overlap * 4) with ((chunk_size - overlap) * 4) in * by lia.
  assert (Hbefore' : forall k, (k < m)%nat ->
            Z.of_nat k * ((chunk_size - overlap) * 4) + chunk_size * 4 < Z.of_nat n).
  { intros k Hk. specialize (Hbefore k Hk). by rewrite Z.add_0_l in Hbefore. }
  rewrite Z.add_0_l in Hlast. clear Hbefore.
  exists m. split; [|by split].
  rewrite Hc, map_app, map_map. f_equal. f_equal.
  - apply map_ext_in. intros k Hk%in_seq. specialize (Hbefore' k ltac:(lia)).
    unfold span_text, window. cbn [span_cut span_start span_stop].
    rewrite Z.add_0_l.
    set (s := Z.of_nat k * ((chunk_size - overlap) * 4)) in *.
    assert (0 <= s) by (unfold s; apply Z.mul_nonneg_nonneg; lia).
    rewrite slice_repeat by lia. rewrite strip_repeat by done. f_equal. lia.
  - unfold span_text. cbn [map span_cut span_start]. rewrite Z.add_0_l.
    set (s := Z.of_nat m * ((chunk_size - overlap) * 4)) in *.
    assert (0 <= s) by (unfold s; apply Z.mul_nonneg_nonneg; lia).
    rewrite slice_from_repeat; [done|].
    split; [lia|]. destruct m as [|m]; [unfold s; simpl; lia|].
    specialize (Hbefore' m ltac:(lia)).
    assert (s = Z.of_nat m * ((chunk_size - overlap) * 4) + (chunk_size - overlap) * 4)
      by (unfold s; lia).
    lia.
Qed.

Lemma read_letters n file_path :
  read_file_content (sample_env (letters n)) file_path = repeat 97%N n.
Proof.
  unfold read_file_content, encodings. cbn [read_with decode].
  unfold sample_env, letters. cbn [decode_utf8 file_bytes]. unfold ascii_text.
  assert (forallb (fun b => (Byte.to_N b <? 128)%N) (repeat "a"%byte n) = true) as ->.
  { induction n; [done|]. simpl. done. }
  assert (map Byte.to_N (repeat "a"%byte n) = repeat 97%N n) as ->.
  { induction n as [|n IH]; [done|]. simpl. by rewrite IH. }
  induction n as [|n IH]; [done|]. simpl. by rewrite IH.
Qed.

Lemma fifty_chunks n :
  Z.of_nat n = 80000 ->
  chunk_text_default (repeat 97%N n)
  = map (fun _ => repeat 97%N 2000) (seq 0 49) ++ [repeat 97%N 1600].
Proof.
  intros Hn. unfold chunk_text_default.
  destruct (chunk_text_repeat 97%N n CHUNK_SIZE CHUNK_OVERLAP)
    as (m & -> & Hlast & Hbefore); [done..|unfold CHUNK_SIZE, CHUNK_OVERLAP; lia|].
  unfold CHUNK_SIZE, CHUNK_OVERLAP in *.
  assert (m = 49%nat) as ->.
  { destruct (decide (m <= 49)%nat) as [Hle|Hgt]; [lia|].
    specialize (Hbefore 49%nat ltac:(lia)). lia. }
  rewrite Hn. reflexivity.
Qed.

(** The first run of the 80000-letter example. *)
Lemma index_file_eighty_thousand :
  index_file (sample_env (letters 80000)) notes_md false empty_world
  = (Returned true, after_fifty_chunks).
Proof.
  unfold index_file. cbv zeta. rewrite (read_letters 80000 notes_md).
  rewrite (fifty_chunks 80000) by (vm_compute; reflexivity).
  vm_compute. reflexivity.
Qed.

Lemma step_advance text char_size char_overlap start sp next :
  step text char_size char_overlap start sp next ->
  start + char_size - char_overlap <= next.
Proof.
  intros [p (Hlo & _)|p _ (Hlo & _)|p _ _ (Hlo & _)|_ _ _]; lia.
Qed.

Lemma run_count text char_size char_overlap start spans :
  0 <= char_overlap < char_size ->
  run text char_size char_overlap start spans ->
  (1 <= length spans)%nat /\
  ((2 <= length spans)%nat ->
   start + (Z.of_nat (length spans) - 2) * (char_size - char_overlap) + char_size
   < len text).
Proof.
  intros Hov Hrun.
  induction Hrun as [start|start sp next rest Hstart Hend Hstep Hrun [IH1 IH2]].
  - simpl. split; lia.
  - pose proof (step_advance _ _ _ _ _ _ Hstep) as Hadv.
    cbn [length]. split; [lia|]. intros _.
    destruct (decide (2 <= length rest)%nat) as [Hlong|Hshort].
    + specialize (IH2 Hlong).
      replace (Z.of_nat (S (length rest)) - 2) with ((Z.of_nat (length rest) - 2) + 1) by lia.
      rewrite Z.mul_add_distr_r, Z.mul_1_l. lia.
    + replace (Z.of_nat (S (length rest)) - 2) with 0 by lia. lia.
Qed.

Lemma chunk_text_count text chunk_size overlap :
  0 <= overlap < chunk_size ->
  exists chunks,
    chunk_text text chunk_size overlap = Some chunks /\
    (1 <= length chunks)%nat /\
    ((2 <= length chunks)%nat ->
     (Z.of_nat (length chunks) - 2) * ((chunk_size - overlap) * 4) + chunk_size * 4
     < len text).
Proof.
  intros Hov.
  destruct (Z.le_gt_cases (len text) (chunk_size * 4)) as [Hshort|Hlong].
  - destruct (chunk_text_whole text chunk_size overlap Hshort) as [_ Hc].
    eexists. split; [exact Hc|]. simpl. split; lia.
  - destruct (chunk_text_run text chunk_size overlap) as (spans & _ & Hc & Hrun);
      [lia..|].
    eexists. split; [exact Hc|]. rewrite length_map.
    assert (0 <= overlap * 4 < chunk_size * 4) as Hov' by lia.
    destruct (run_count _ _ _ _ _ Hov' Hrun) as [H1 H2].
    split; [done|]. intros H. specialize (H2 H).
    replace ((chunk_size - overlap) * 4) with (chunk_size * 4 - overlap * 4) by lia.
    lia.
Qed.

(** X4. With [0 <= overlap < chunk_size], [chunk_text] returns at least one
    chunk, and it returns [n >= 2] chunks only for a text longer than
    [n - 2] strides of [(chunk_size - overlap) * 4] characters plus one
    window of [chunk_size * 4]: the number of chunks is bounded by the
    length of the text. *)
Theorem chunk_count_bounded text chunk_size overlap :
  0 <= overlap < chunk_size ->
  exists chunks,
    chunk_text text chunk_size overlap = Some chunks /\
    (1 <= length chunks)%nat /\
    ((2 <= length chunks)%nat ->
     (Z.of_nat (length chunks) - 2) * ((chunk_size - overlap) * 4) + chunk_size * 4
     < len text).
Proof. apply chunk_text_count. Qed.

(** X5. With the default sizes a content of at most 78800 characters gives
    at most 49 chunks, so that all its chunk numbers lie in the range
    [1 .. 49] of identifiers [delete_file_vectors] names. *)
Theorem default_chunks_within_delete_range content :
  len content <= 78800 ->
  (length (chunk_text_default content) <= length DELETE_RANGE)%nat.
Proof.
  intros Hlen.
  destruct (chunk_text_count content CHUNK_SIZE CHUNK_OVERLAP) as (chunks & Hc & _ & Hn);
    [done|].
  unfold chunk_text_default. rewrite Hc. cbn [default].
  change (length DELETE_RANGE) with 49%nat.
  destruct (decide (length chunks <= 49)%nat) as [|Hmore]; [done|].
  specialize (Hn ltac:(lia)). unfold CHUNK_SIZE, CHUNK_OVERLAP in Hn. lia.
Qed.

(** X6. A text longer than [chunk_size * 4] that holds no newline and no
    period is cut by position alone: the chunks [chunk_text] returns are
    the texts of [m] windows of exactly [chunk_size * 4] characters, window
    [k] starting at [k * (chunk_size - overlap) * 4], followed by the
    remainder from [m * (chunk_size - overlap) * 4] to the end; [m] is the
    least number for which the window starting there reaches the end of the
    text. *)
Theorem break_free_text_is_cut_in_windows text chunk_size overlap :
  0 <= overlap < chunk_size -> chunk_size * 4 < len text ->
  NL ∉ text -> DOT ∉ text ->
  exists (m : nat) (spans : list span),
    spans = map (window (chunk_size * 4) ((chunk_size - overlap) * 4) 0) (seq 0 m)
            ++ [Span (Z.of_nat m * ((chunk_size - overlap) * 4)) (len text) Remainder] /\
    chunk_spans text chunk_size overlap = Some spans /\
    chunk_text text chunk_size overlap = Some (map (span_text text) spans) /\
    len text <= Z.of_nat m * ((chunk_size - overlap) * 4) + chunk_size * 4 /\
    (forall k, (k < m)%nat ->
       Z.of_nat k * ((chunk_size - overlap) * 4) + chunk_size * 4 < len text).
Proof.
  intros Hov Hlong Hnl Hdot.
  destruct (chunk_text_run text chunk_size overlap Hov Hlong) as (spans & Hs & Hc & Hrun).
  destruct (run_break_free _ _ _ _ _ Hnl Hdot Hrun) as (m & Hspans & Hlast & Hbefore).
  replace (chunk_size * 4 - overlap * 4) with ((chunk_size - overlap) * 4) in * by lia.
  rewrite Z.add_0_l in Hspans, Hlast. exists m, spans.
  split; [done|]. split; [done|]. split; [done|]. split; [done|].
  intros k Hk. specialize (Hbefore k Hk). by rewrite Z.add_0_l in Hbefore.
Qed.

Lemma lstrip_head s c rest : lstrip s = c :: rest -> isspace c = false.
Proof.
  induction s as [|d s IH]; simpl; [done|].
  destruct (isspace d) eqn:Hd; [done|]. by intros [= <- _].
Qed.

Lemma lstrip_suffix s : exists pre, s = pre ++ lstrip s.
Proof.
  induction s as [|d s [pre IH]]; simpl; [by exists []|].
  destruct (isspace d); [|by exists []]. exists (d :: pre). simpl. by rewrite <- IH.
Qed.

Lemma strip_trimmed s : trimmed (strip s).
Proof.
  unfold strip, rstrip. split.
  - intros c rest Hs.
    destruct (lstrip_suffix (rev (lstrip s))) as [pre Hpre].
    apply (f_equal (@rev N)) in Hpre. rewrite rev_involutive, rev_app_distr, Hs in Hpre.
    simpl in Hpre. by apply lstrip_head in Hpre.
  - intros c front Hs. apply (f_equal (@rev N)) in Hs.
    rewrite rev_involutive, rev_app_distr in Hs. simpl in Hs.
    by apply lstrip_head in Hs.
Qed.

Lemma run_inner_spans text char_size char_overlap start spans :
  run text char_size char_overlap start spans ->
  forall i sp, spans !! i = Some sp -> (i + 1 < length spans)%nat ->
    span_text text sp = strip (slice text (span_start sp) (span_stop sp)).
Proof.
  induction 1 as [start|start sp0 next rest Hstart Hend Hstep Hrun IH]; intros i sp Hi Hlt.
  - simpl in Hlt. lia.
  - destruct i as [|i]; simpl in Hi.
    + injection Hi as ->.
      destruct Hstep; reflexivity.
    + apply (IH i); [done|]. simpl in Hlt. lia.
Qed.

(** X7. With [0 <= overlap < chunk_size], every chunk [chunk_text] returns
    except the last one is stripped: it neither starts nor ends with a
    whitespace character.  (The last chunk is the text, or the rest of the
    text, as it stands.) *)
Theorem inner_chunks_are_trimmed text chunk_size overlap :
  0 <= overlap < chunk_size ->
  exists chunks,
    chunk_text text chunk_size overlap = Some chunks /\
    forall i chunk, chunks !! i = Some chunk -> (i + 1 < length chunks)%nat ->
      trimmed chunk.
Proof.
  intros Hov.
  destruct (Z.le_gt_cases (len text) (chunk_size * 4)) as [Hshort|Hlong].
  - destruct (chunk_text_whole text chunk_size overlap Hshort) as [_ Hc].
    eexists. split; [exact Hc|]. intros i chunk _ Hi. simpl in Hi. lia.
  - destruct (chunk_text_run text chunk_size overlap) as (spans & _ & Hc & Hrun);
      [lia..|].
    eexists. split; [exact Hc|]. intros i chunk Hi Hlt.
    rewrite length_map in Hlt.
    destruct (spans !! i) as [sp|] eqn:Hsp.
    2:{ apply lookup_ge_None in Hsp. lia. }
    assert (chunk = span_text text sp) as ->.
    { assert (map (span_text text) spans !! i = Some (span_text text sp)) as Hm.
      { clear -Hsp. revert i Hsp. induction spans as [|s l IH]; intros [|i]; simpl; try done.
        - by intros [= ->].
        - apply IH. }
      congruence. }
    rewrite (run_inner_spans _ _ _ _ _ Hrun i sp Hsp Hlt). apply strip_trimmed.
Qed.

Lemma chunk_count_bounded_witness :
  0 <= 1 < 2 /\
  exists chunks,
    chunk_text twelve 2 1 = Some chunks /\
    (1 <= length chunks)%nat /\
    ((2 <= length chunks)%nat ->
     (Z.of_nat (length chunks) - 2) * ((2 - 1) * 4) + 2 * 4 < len twelve).
Proof.
  split; [lia|]. apply (chunk_count_bounded twelve 2 1). lia.
Defined.

Lemma default_chunks_within_delete_range_witness :
  len fifty <= 78800 /\
  (length (chunk_text_default fifty) <= length DELETE_RANGE)%nat.
Proof.
  assert (len fifty <= 78800) as Hlen by (vm_compute; discriminate).
  split; [exact Hlen|]. apply (default_chunks_within_delete_range fifty Hlen).
Defined.

Lemma break_free_text_is_cut_in_windows_witness :
  (0 <= 1 < 2 /\ 2 * 4 < len twelve /\ (NL ∉ twelve) /\ (DOT ∉ twelve)) /\
  exists (m : nat) (spans : list span),
    spans = map (window (2 * 4) ((2 - 1) * 4) 0) (seq 0 m)
            ++ [Span (Z.of_nat m * ((2 - 1) * 4)) (len twelve) Remainder] /\
    chunk_spans twelve 2 1 = Some spans /\
    chunk_text twelve 2 1 = Some (map (span_text twelve) spans) /\
    len twelve <= Z.of_nat m * ((2 - 1) * 4) + 2 * 4 /\
    (forall k, (k < m)%nat -> Z.of_nat k * ((2 - 1) * 4) + 2 * 4 < len twelve).
Proof.
  assert (NL ∉ twelve) as Hnl.
  { apply (bool_decide_unpack _). vm_compute. exact I. }
  assert (DOT ∉ twelve) as Hdot.
  { apply (bool_decide_unpack _). vm_compute. exact I. }
  assert (2 * 4 < len twelve) as Hlong by reflexivity.
  split; [split; [lia|split; [exact Hlong|split; [exact Hnl|exact Hdot]]]|].
  apply (break_free_text_is_cut_in_windows twelve 2 1); [lia|exact Hlong|exact Hnl|exact Hdot].
Defined.

Lemma inner_chunks_are_trimmed_witness :
  0 <= 1 < 2 /\
  exists chunks,
    chunk_text two_sentences 2 1 = Some chunks /\
    forall i chunk, chunks !! i = Some chunk -> (i + 1 < length chunks)%nat ->
      trimmed chunk.
Proof.
  split; [lia|]. apply (inner_chunks_are_trimmed two_sentences 2 1). lia.
Defined.

(** ** Worked runs *)

Lemma unchanged_file_untouched_witness :
  (should_index_file notes_md = true /\
   readable (sample_env (letters 2001)) notes_md = true /\
   load_file_hashes after_two_chunks !! notes_md
   = Some (get_file_hash (sample_env (letters 2001)) notes_md)) /\
  index_file (sample_env (letters 2001)) notes_md false after_two_chunks
  = (Returned true, after_two_chunks).
Proof.
  split; [split; [reflexivity|split; reflexivity]|].
  apply (unchanged_file_untouched (sample_env (letters 2001)) after_two_chunks notes_md);
    reflexivity.
Defined.


Lemma embedding_failure_does_not_abort_witness :
  (reindexed (flaky_env 4 (letters 7000)) after_two_chunks notes_md false /\
   read_file_content (flaky_env 4 (letters 7000)) notes_md <> []) /\
  exists ok w' evs,
    index_file (flaky_env 4 (letters 7000)) notes_md false after_two_chunks = (ok, w') /\
    calls w' = calls after_two_chunks ++ evs /\
    map fst (embeds evs)
    = chunk_text_default (read_file_content (flaky_env 4 (letters 7000)) notes_md).
Proof.
  assert (reindexed (flaky_env 4 (letters 7000)) after_two_chunks notes_md false) as Hre.
  { split; [reflexivity|]. split; [reflexivity|].
    right. vm_compute. intros H. discriminate H. }
  assert (read_file_content (flaky_env 4 (letters 7000)) notes_md <> []) as Hne.
  { vm_compute. intros H. discriminate H. }
  split; [split; [exact Hre|exact Hne]|].
  destruct (embedding_failure_does_not_abort (flaky_env 4 (letters 7000)) after_two_chunks
              notes_md false Hre Hne) as (ok & w' & evs & H1 & H2 & H3 & _).
  exists ok, w', evs. split; [exact H1|]. split; [exact H2|exact H3].
Defined.

(** The run of the specification's example: the provider fails for chunk 3
    of 5 (two requests were answered when the file was first indexed, so
    this is the fifth request).  All five chunks are submitted, chunks 1, 2,
    4 and 5 are upserted in one request, the result is [False] and the
    ledger file is untouched. *)
Example third_chunk_of_five_fails :
  (index_file (flaky_env 4 (letters 7000)) notes_md false after_two_chunks).1
  = Returned false /\
  hash_file (index_file (flaky_env 4 (letters 7000)) notes_md false after_two_chunks).2
  = hash_file after_two_chunks /\
  map (fun r => usable r.2)
    (embeds (drop (length (calls after_two_chunks))
               (calls (index_file (flaky_env 4 (letters 7000)) notes_md false
                         after_two_chunks).2)))
  = [true; true; false; true; true] /\
  map (map v_id)
    (omap (fun c => match c with Upsert vs _ => Some vs | _ => None end)
       (drop (length (calls after_two_chunks))
          (calls (index_file (flaky_env 4 (letters 7000)) notes_md false
                    after_two_chunks).2)))
  = [[chunk_id notes_prefix 1; chunk_id notes_prefix 2;
      chunk_id notes_prefix 4; chunk_id notes_prefix 5]].
Proof. repeat split; vm_compute; reflexivity. Qed.

(** What no codec but Latin-1 reads is not skipped: a file holding the one
    byte [0xFF] is read as the one character [U+00FF], and that is
    embedded and upserted. *)
Example file_read_as_latin1_is_indexed :
  decode_utf8 (sample_env (fun _ => [Byte.xff])) [Byte.xff] = None /\
  read_file_content (sample_env (fun _ => [Byte.xff])) notes_md = [255%N] /\
  (index_file (sample_env (fun _ => [Byte.xff])) notes_md false empty_world).1
  = Returned true /\
  embeds (calls (index_file (sample_env (fun _ => [Byte.xff])) notes_md false
                   empty_world).2)
  = [([255%N], Some sample_vector)].
Proof. repeat split; vm_compute; reflexivity. Qed.

(** C2, as stated, fails.  [notes.md] is indexed and its ledger entry holds
    its digest.  A forced run deletes its records and then fails at the one
    embedding request: the result is [False] and the ledger file is as it
    was - so it still holds the digest, and the next non-forced run, even
    with a provider that answers, skips the file: it makes no call, answers
    [True], and the record of the file's one chunk stays deleted. *)
Lemma failed_forced_run_is_not_retried :
  load_file_hashes after_three_letters !! notes_md
  = Some (get_file_hash (flaky_env 1 (letters 3)) notes_md) /\
  index_file (flaky_env 1 (letters 3)) notes_md true after_three_letters
  = (Returned false, after_failed_forced_run) /\
  drop (length (calls after_three_letters)) (calls after_failed_forced_run)
  = [Delete (ids_to_delete notes_md) true; Embed (repeat 97%N 3) None] /\
  hash_file after_failed_forced_run = hash_file after_three_letters /\
  is_Some (index after_three_letters !! chunk_id notes_prefix 1) /\
  index after_failed_forced_run !! chunk_id notes_prefix 1 = None /\
  index_file (sample_env (letters 3)) notes_md false after_failed_forced_run
  = (Returned true, after_failed_forced_run).
Proof.
  split; [vm_compute; reflexivity|].
  split; [vm_compute; reflexivity|].
  split; [vm_compute; reflexivity|].
  split; [vm_compute; reflexivity|].
  split; [vm_compute; eexists; reflexivity|].
  split; vm_compute; reflexivity.
Qed.

(** C1 fails on the code.  [notes.md] held 80000 letters when it was first
    indexed: fifty chunks, a number the comment in [delete_file_vectors]
    ("no file has more than 50 chunks") allows for.  It now holds 50
    letters, one chunk.  The run deletes [notes.md-chunk-1] to [-chunk-49],
    upserts [-chunk-1], answers [True] and records the new digest - and
    [-chunk-50] of the old content is still in the store, so the identifiers
    of the file are not exactly [-chunk-1]. *)
Lemma stale_chunk_beyond_delete_range :
  index_file (sample_env (letters 80000)) notes_md false empty_world
  = (Returned true, after_fifty_chunks) /\
  load_file_hashes after_fifty_chunks !! notes_md
  = Some (get_file_hash (sample_env (letters 80000)) notes_md) /\
  get_file_hash (sample_env (letters 50)) notes_md
  <> get_file_hash (sample_env (letters 80000)) notes_md /\
  (index_file (sample_env (letters 50)) notes_md false after_fifty_chunks).1
  = Returned true /\
  doc_id_prefix
    (md_file_type (create_metadata (sample_env (letters 50)) notes_md))
    (md_file_name (create_metadata (sample_env (letters 50)) notes_md))
  = notes_prefix /\
  length (chunk_text_default (read_file_content (sample_env (letters 50)) notes_md))
  = 1%nat /\
  is_Some (index (index_file (sample_env (letters 50)) notes_md false
                    after_fifty_chunks).2 !! chunk_id notes_prefix 50) /\
  ~ chunk_ids_exactly
      (index_file (sample_env (letters 50)) notes_md false after_fifty_chunks).2
      notes_prefix 1.
Proof.
  assert (is_Some (index (index_file (sample_env (letters 50)) notes_md false
                            after_fifty_chunks).2 !! chunk_id notes_prefix 50)) as Hstale.
  { vm_compute. eexists. reflexivity. }
  split; [exact index_file_eighty_thousand|].
  split; [vm_compute; reflexivity|].
  split; [vm_compute; intros H; discriminate H|].
  split; [vm_compute; reflexivity|].
  split; [vm_compute; reflexivity|].
  split; [vm_compute; reflexivity|].
  split; [exact Hstale|].
  intros Hexact. apply Hexact in Hstale. lia.
Qed.

(** The other way stale chunks survive: for [utils/foo.ts] the delete call
    names identifiers of type [unknown] while the records are stored under
    type [context], so chunk 2 of the old content outlives a re-index that
    produces a single chunk. *)
Example stale_chunk_under_other_file_type :
  delete_file_type foo_ts = "unknown"%string /\
  md_file_type (create_metadata (sample_env (letters 50)) foo_ts) = "context"%string /\
  index_file (sample_env (letters 2001)) foo_ts false empty_world
  = (Returned true, foo_after_two_chunks) /\
  (index_file (sample_env (letters 50)) foo_ts false foo_after_two_chunks).1
  = Returned true /\
  length (chunk_text_default (read_file_content (sample_env (letters 50)) foo_ts))
  = 1%nat /\
  is_Some (index (index_file (sample_env (letters 50)) foo_ts false
                    foo_after_two_chunks).2
           !! chunk_id "usergroupchatcontext-context-foo.ts" 2).
Proof.
  repeat split; try (vm_compute; reflexivity). vm_compute. eexists. reflexivity.
Qed.

Lemma after_two_chunks_ids k :
  is_Some (index after_two_chunks !! chunk_id notes_prefix k) ->
  chunk_id notes_prefix k ∈ ids_to_delete notes_md.
Proof.
  intros [v Hv]. apply elem_of_map_to_list in Hv.
  set (l := map_to_list (index after_two_chunks)) in Hv. vm_compute in l. subst l.
  assert (ids_to_delete notes_md = map (chunk_id notes_prefix) (seq 1 49)) as ->
    by reflexivity.
  assert ((1 <= k <= 49)%nat) as Hk; [|by apply list_elem_of_In, in_map, in_seq; lia].
  apply elem_of_cons in Hv as [Hk|Hv].
  { apply (f_equal fst) in Hk. assert (k = 1%nat); [|lia].
    apply (chunk_id_inj notes_prefix). exact Hk. }
  apply elem_of_cons in Hv as [Hk|Hv].
  { apply (f_equal fst) in Hk. assert (k = 2%nat); [|lia].
    apply (chunk_id_inj notes_prefix). exact Hk. }
  by apply elem_of_nil in Hv.
Qed.

Lemma reindex_replaces_chunk_ids_witness :
  reindexed (sample_env (letters 50)) after_two_chunks notes_md false /\
  chunk_ids_exactly
    (index_file (sample_env (letters 50)) notes_md false after_two_chunks).2
    notes_prefix 1.
Proof.
  assert (reindexed (sample_env (letters 50)) after_two_chunks notes_md false) as Hre.
  { split; [reflexivity|]. split; [reflexivity|].
    right. vm_compute. intros H. discriminate H. }
  split; [exact Hre|].
  destruct (reindex_replaces_chunk_ids (sample_env (letters 50)) after_two_chunks
              notes_md false Hre) as (evs & _ & _ & Hexact).
  exact (Hexact eq_refl after_two_chunks_ids eq_refl).
Defined.

(** * Further properties of the synchronisation *)

Section Paths.
Local Open Scope string_scope.

Lemma string_app_cons (a : ascii) (s t : string) :
  String a s +:+ t = String a (s +:+ t).
Proof. reflexivity. Qed.

Lemma string_app_nil_l (t : string) : "" +:+ t = t.
Proof. reflexivity. Qed.

Lemma string_app_assoc (s1 s2 s3 : string) : (s1 +:+ s2) +:+ s3 = s1 +:+ (s2 +:+ s3).
Proof.
  induction s1 as [|a s1 IH]; [done|]. by rewrite !string_app_cons, IH.
Qed.

Lemma string_app_nil_r (s : string) : s +:+ "" = s.
Proof. induction s as [|a s IH]; [done|]. by rewrite string_app_cons, IH. Qed.

Lemma rev_app_append (s t : string) : String.rev_app s t = String.rev s +:+ t.
Proof.
  unfold String.rev. revert t. induction s as [|a s IH]; intros t; [done|].
  cbn [String.rev_app]. rewrite IH, (IH (String a "")), string_app_assoc. done.
Qed.

Lemma string_rev_app (s1 s2 : string) :
  String.rev (s1 +:+ s2) = String.rev s2 +:+ String.rev s1.
Proof.
  induction s1 as [|a s1 IH].
  { by rewrite string_app_nil_l, string_app_nil_r. }
  rewrite string_app_cons. unfold String.rev in *. cbn [String.rev_app].
  rewrite (rev_app_append (s1 +:+ s2)), (rev_app_append s1).
  unfold String.rev. rewrite IH, string_app_assoc. done.
Qed.

Lemma prefix_app (s t : string) : String.prefix s (s +:+ t) = true.
Proof.
  induction s as [|a s IH]; [by destruct t|].
  rewrite string_app_cons. cbn [String.prefix].
  destruct (ascii_dec a a); [done|congruence].
Qed.

Lemma endswith_app (pre suffix : string) : endswith (pre +:+ suffix) suffix = true.
Proof. unfold endswith. rewrite string_rev_app. apply prefix_app. Qed.

Lemma basename_suffix (p : string) : exists pre, p = pre +:+ basename p.
Proof.
  induction p as [|c p [pre IH]]; [by exists ""|].
  cbn [basename]. destruct (contains "/" (String c p)).
  - exists (String c pre). by rewrite string_app_cons, <- IH.
  - by exists "".
Qed.

Lemma from_last_dot_suffix (b e : string) :
  from_last_dot b = Some e -> exists pre, b = pre +:+ e.
Proof.
  revert e. induction b as [|c b IH]; intros e; simpl; [done|].
  destruct (from_last_dot b) as [e'|].
  - intros [= <-]. destruct (IH e' eq_refl) as [pre ->]. by exists (String c pre).
  - destruct (Ascii.eqb c "."); [|done]. intros [= <-]. by exists "".
Qed.

(** A non-empty extension is the end of the path. *)
Lemma splitext_ext_suffix (p e : string) :
  splitext_ext p = e -> e <> "" -> exists pre, p = pre +:+ e.
Proof.
  unfold splitext_ext. intros He Hne.
  destruct (from_last_dot (basename p)) as [e'|] eqn:Hdot; [|congruence].
  destruct (all_chars _ _ _); [congruence|]. subst e'.
  destruct (from_last_dot_suffix _ _ Hdot) as [pre1 H1].
  destruct (basename_suffix p) as [pre2 H2].
  exists (pre2 +:+ pre1). by rewrite string_app_assoc, <- H1.
Qed.

Lemma should_index_file_ext (p : string) :
  should_index_file p = true -> splitext_ext p ∈ EXTENSIONS_TO_INDEX.
Proof.
  unfold should_index_file.
  destruct (bool_decide (splitext_ext p ∈ EXTENSIONS_TO_INDEX)) eqn:H; [|done].
  intros _. by apply bool_decide_eq_true in H.
Qed.

(** X2. For a file the filter lets through, [create_metadata] always works
    out one of ten file types; the fallback type [unknown] is never
    stored. *)
Theorem indexed_file_has_known_type env file_path :
  should_index_file file_path = true ->
  md_file_type (create_metadata env file_path) ∈ KNOWN_TYPES.
Proof.
  intros Hext%should_index_file_ext.
  unfold create_metadata. cbn [md_file_type].
  unfold EXTENSIONS_TO_INDEX in Hext.
  repeat (apply elem_of_cons in Hext as [->|Hext]);
    [..|by apply elem_of_nil in Hext];
    repeat match goal with |- context [contains ?a ?b] => destruct (contains a b) end;
    apply list_elem_of_In; vm_compute; tauto.
Qed.

(** X3. For a file the filter lets through, [delete_file_vectors] works out
    the same file type as [create_metadata], except when the stored type is
    one of [context], [utility], [service], [type_definition] and [code]:
    for those it has no rule and names the identifiers of type
    [unknown]. *)
Theorem delete_type_agrees_or_unknown env file_path :
  should_index_file file_path = true ->
  delete_file_type file_path
  = if bool_decide (md_file_type (create_metadata env file_path) ∈ STORED_ONLY_TYPES)
    then "unknown"
    else md_file_type (create_metadata env file_path).
Proof.
  intros Hext%should_index_file_ext.
  destruct (splitext_ext_suffix file_path (splitext_ext file_path) eq_refl)
    as [pre Hpre].
  { intros Hnil. rewrite Hnil in Hext. apply list_elem_of_In in Hext.
    vm_compute in Hext. intuition discriminate. }
  apply (f_equal String.rev) in Hpre. rewrite string_rev_app in Hpre.
  unfold delete_file_type, CODE_EXTENSIONS. cbn [delete_code_type].
  unfold endswith, create_metadata. cbn [md_file_type]. rewrite Hpre.
  unfold EXTENSIONS_TO_INDEX in Hext.
  repeat (apply elem_of_cons in Hext as [->|Hext]);
    [..|by apply elem_of_nil in Hext];
    repeat match goal with |- context [contains ?a ?b] => destruct (contains a b) end.
  all: rewrite prefix_app; vm_compute; reflexivity.
Qed.

Lemma replace_go_skip (old new a b : string) :
  replace_go old new (a +:+ b) (String.length a) = replace_go old new b 0.
Proof.
  induction a as [|x a IH]; [done|].
  rewrite string_app_cons. cbn [String.length replace_go]. exact IH.
Qed.

Lemma replace_go_absent (old new s : string) :
  contains old s = false -> replace_go old new s 0 = s.
Proof.
  induction s as [|c s IH]; [done|].
  cbn [contains replace_go].
  destruct (String.prefix old (String c s)); [done|].
  intros H. by rewrite IH.
Qed.

Lemma replace_go_prefix (old new tail : string) :
  old <> "" ->
  replace_go old new (old +:+ tail) 0 = new +:+ replace_go old new tail 0.
Proof.
  destruct old as [|c old]; [done|]. intros _.
  rewrite string_app_cons. cbn [replace_go].
  rewrite <- string_app_cons, prefix_app. cbn [String.length].
  rewrite Nat.sub_1_r. cbn [Nat.pred]. by rewrite replace_go_skip.
Qed.

(** X1. For a path [DIRECTORY_TO_INDEX/rel], where [rel] does not start
    with a slash and the directory name does not occur again further on,
    [get_relative_path] gives back [rel]. *)
Theorem get_relative_path_inside (rel : string) :
  String.prefix "/" rel = false ->
  contains DIRECTORY_TO_INDEX ("/" +:+ rel) = false ->
  get_relative_path (DIRECTORY_TO_INDEX +:+ "/" +:+ rel) = rel.
Proof.
  intros Hslash Habsent. unfold get_relative_path, replace.
  rewrite replace_go_prefix by (intros H; discriminate H).
  rewrite string_app_nil_l, replace_go_absent by done.
  rewrite string_app_cons, string_app_nil_l. cbn [lstrip_char].
  change (Ascii.eqb "/" "/") with true. cbn iota.
  destruct rel as [|c rel]; [reflexivity|]. cbn [lstrip_char].
  cbn [String.prefix] in Hslash.
  destruct (Ascii.eqb_spec "/" c) as [<-|]; [|done].
  destruct (ascii_dec "/" "/"); [|done]. by destruct rel.
Qed.

End Paths.

Lemma made_spec metadata base_doc_id total replies : forall i v,
  v ∈ made metadata base_doc_id total i replies ->
  exists j chunk f values,
    replies !! j = Some (chunk, Some (f :: values)) /\
    v = vector_for metadata base_doc_id total (i + j) chunk (f :: values).
Proof.
  induction replies as [|[chunk reply] replies IH]; intros i v Hv; simpl in Hv.
  { by apply elem_of_nil in Hv. }
  assert (v ∈ made metadata base_doc_id total (S i) replies ->
          exists j c f values,
            ((chunk, reply) :: replies) !! j = Some (c, Some (f :: values)) /\
            v = vector_for metadata base_doc_id total (i + j) c (f :: values)) as Htail.
  { intros (j & c & f & values & Hj & ->)%IH.
    exists (S j), c, f, values. split; [done|]. f_equal. lia. }
  destruct reply as [[|f values]|]; simpl in Hv; [by apply Htail| |by apply Htail].
  apply elem_of_cons in Hv as [->|Hv]; [|by apply Htail].
  exists 0%nat, chunk, f, values. split; [done|]. f_equal. lia.
Qed.

Section Sent.

Variables (env : Env) (metadata : Metadata) (base_doc_id : string) (total : nat).

Local Abbreviation sent_inv' := (sent_inv metadata base_doc_id total).
Local Abbreviation made' := (made metadata base_doc_id total).

Lemma sent_inv_start w0 :
  sent_inv' w0 [] {| world := w0; vectors_to_upsert := []; success := true |} [].
Proof.
  split; simpl.
  - by rewrite app_nil_r.
  - done.
  - by intros v ?%elem_of_nil.
  - by intros vectors ok v ?%elem_of_nil.
  - exists []. split; [done|]. by intros v ?%elem_of_nil.
  - intros _. split; [lia|done].
Qed.

Lemma made_grows evs evs' v :
  v ∈ made' 0 (embeds evs) -> v ∈ made' 0 (embeds (evs ++ evs')).
Proof. intros Hv. rewrite embeds_app, made_app. apply elem_of_app. by left. Qed.

Lemma sent_inv_step w0 done st evs chunk :
  sent_inv' w0 done st evs ->
  exists evs',
    sent_inv' w0 (done ++ [chunk])
      (index_chunk env metadata base_doc_id total (length done) chunk st) (evs ++ evs').
Proof.
  intros [Hcalls Hin Hpending Hsent (stored & Hidx & Hstored) Hbatch].
  assert (Hlen : length (embeds evs) = length done).
  { by rewrite <- Hin, length_map. }
  (* a reply that yields no record *)
  assert (Hskip : forall reply, usable reply = false ->
    sent_inv' w0 (done ++ [chunk])
      {| world := {| hash_file := hash_file (world st); index := index (world st);
                     calls := calls (world st) ++ [Embed chunk reply] |};
         vectors_to_upsert := vectors_to_upsert st; success := false |}
      (evs ++ [Embed chunk reply])).
  { intros reply Hreply. split; simpl.
    - by rewrite Hcalls, app_assoc.
    - by rewrite embeds_app, map_app, Hin.
    - intros v Hv. by apply made_grows, Hpending.
    - intros vectors ok v [Hup|Hup]%elem_of_app Hv.
      + by eapply made_grows, Hsent.
      + by apply list_elem_of_singleton in Hup.
    - exists stored. split; [done|]. intros v Hv. by apply made_grows, Hstored.
    - intros [Hall _]%Forall_app. destruct (Hbatch Hall) as [? ?].
      split; [done|]. apply Forall_app. split; [done|]. by repeat constructor. }
  unfold index_chunk, get_embedding.
  destruct (embeddings_create env (calls (world st)) chunk) as [[|f values]|] eqn:Hreply.
  - eexists. by apply Hskip.
  - set (v := {| v_id := chunk_id base_doc_id (length done + 1);
                 v_values := f :: values;
                 v_metadata := {| cm_file := metadata; cm_chunk_index := length done + 1;
                                  cm_total_chunks := total; cm_text := chunk |} |}).
    assert (Hnew : forall tail,
              v ∈ made' 0 (embeds (evs ++ Embed chunk (Some (f :: values)) :: tail))).
    { intros tail. rewrite embeds_app, made_app, Hlen. apply elem_of_app. right.
      simpl. left. }
    assert (Hpending' : forall tail u, u ∈ vectors_to_upsert st ++ [v] ->
              u ∈ made' 0 (embeds (evs ++ Embed chunk (Some (f :: values)) :: tail))).
    { intros tail u [Hu|Hu]%elem_of_app.
      - by apply made_grows, Hpending.
      - apply list_elem_of_singleton in Hu as ->. apply Hnew. }
    destruct (100 <=? length (vectors_to_upsert st ++ [v]))%nat eqn:Hfull.
    + unfold index_upsert. simpl.
      set (ok := pinecone_upsert env _ (vectors_to_upsert st ++ [v])).
      assert (Hcommon :
        calls (world st) ++ [Embed chunk (Some (f :: values))]
          ++ [Upsert (vectors_to_upsert st ++ [v]) ok]
        = calls w0 ++ evs ++ [Embed chunk (Some (f :: values));
                               Upsert (vectors_to_upsert st ++ [v]) ok]).
      { by rewrite Hcalls, <- !app_assoc. }
      assert (Hsent' : forall vectors ok' u,
        Upsert vectors ok' ∈ evs ++ [Embed chunk (Some (f :: values));
                                      Upsert (vectors_to_upsert st ++ [v]) ok] ->
        u ∈ vectors ->
        u ∈ made' 0 (embeds (evs ++ [Embed chunk (Some (f :: values));
                                      Upsert (vectors_to_upsert st ++ [v]) ok]))).
      { intros vectors ok' u [Hup|Hup]%elem_of_app Hu.
        - by eapply made_grows, Hsent.
        - apply elem_of_cons in Hup as [[=]|Hup].
          apply list_elem_of_singleton in Hup as [= -> ->]. by apply Hpending'. }
      assert (Hbatch' : Forall (fun c => upsert_failed c = false) evs ->
        Forall batch_ok (evs ++ [Embed chunk (Some (f :: values));
                                 Upsert (vectors_to_upsert st ++ [v]) ok])).
      { intros Hall. destruct (Hbatch Hall) as [Hlt Hok].
        apply Forall_app. split; [done|].
        apply Forall_cons. split; [done|]. apply Forall_cons. split; [|done].
        simpl. rewrite length_app. simpl. lia. }
      exists [Embed chunk (Some (f :: values)); Upsert (vectors_to_upsert st ++ [v]) ok].
      destruct ok eqn:Hok.
      * split; simpl.
        -- rewrite <- Hcommon, <- !app_assoc. done.
        -- by rewrite embeds_app, map_app, Hin.
        -- by intros u ?%elem_of_nil.
        -- apply Hsent'.
        -- exists (stored ++ (vectors_to_upsert st ++ [v])). split.
           ++ by rewrite (insert_vectors_app stored), Hidx.
           ++ intros u [Hu|Hu]%elem_of_app; [by apply made_grows, Hstored|].
              by apply Hpending'.
        -- intros [Hall _]%Forall_app. split; [lia|by apply Hbatch'].
      * split; simpl.
        -- rewrite <- Hcommon, <- !app_assoc. done.
        -- by rewrite embeds_app, map_app, Hin.
        -- apply Hpending'.
        -- apply Hsent'.
        -- exists stored. split; [done|]. intros u Hu. by apply made_grows, Hstored.
        -- intros [_ Hbad]%Forall_app. exfalso.
           inversion Hbad as [|?? _ Hbad']. by inversion Hbad'.
    + exists [Embed chunk (Some (f :: values))]. split; simpl.
      * by rewrite Hcalls, app_assoc.
      * by rewrite embeds_app, map_app, Hin.
      * apply Hpending'.
      * intros vectors ok u [Hup|Hup]%elem_of_app Hu.
        -- by eapply made_grows, Hsent.
        -- by apply list_elem_of_singleton in Hup.
      * exists stored. split; [done|]. intros u Hu. by apply made_grows, Hstored.
      * intros [Hall _]%Forall_app. destruct (Hbatch Hall) as [? ?].
        apply Nat.leb_gt in Hfull. split; [done|].
        apply Forall_app. split; [done|]. by repeat constructor.
  - eexists. by apply Hskip.
Qed.

Lemma sent_inv_chunks w0 chunks : forall done st evs,
  sent_inv' w0 done st evs ->
  exists evs',
    sent_inv' w0 (done ++ chunks)
      (index_chunks env metadata base_doc_id total (length done) chunks st) (evs ++ evs').
Proof.
  induction chunks as [|chunk chunks IH]; intros done st evs Hinv; simpl.
  { exists []. by rewrite !app_nil_r. }
  destruct (sent_inv_step _ _ _ _ chunk Hinv) as (evs1 & Hinv1).
  destruct (IH _ _ _ Hinv1) as (evs2 & Hinv2).
  exists (evs1 ++ evs2). rewrite length_app, Nat.add_1_r in Hinv2.
  rewrite <- !app_assoc in Hinv2. exact Hinv2.
Qed.

Lemma sent_inv_flush w0 done st evs :
  sent_inv' w0 done st evs ->
  exists evs', sent_inv' w0 done (upsert_remaining env st) (evs ++ evs').
Proof.
  intros Hinv. unfold upsert_remaining.
  destruct (vectors_to_upsert st) as [|v0 pending] eqn:Hvs.
  { exists []. by rewrite app_nil_r. }
  destruct Hinv as [Hcalls Hin Hpending Hsent (stored & Hidx & Hstored) Hbatch].
  rewrite Hvs in *. unfold index_upsert. simpl.
  set (ok := pinecone_upsert env (calls (world st)) (v0 :: pending)).
  exists [Upsert (v0 :: pending) ok]. split; simpl.
  - by rewrite Hcalls, app_assoc.
  - rewrite embeds_app. simpl. by rewrite app_nil_r.
  - intros v Hv. by apply made_grows, Hpending.
  - intros vectors ok' v [Hup|Hup]%elem_of_app Hv.
    + by eapply made_grows, Hsent.
    + apply list_elem_of_singleton in Hup as [= -> ->]. by apply made_grows, Hpending.
  - destruct ok.
    + exists (stored ++ v0 :: pending). split.
      * by rewrite (insert_vectors_app stored), Hidx.
      * intros v [Hv|Hv]%elem_of_app; apply made_grows; auto.
    + exists stored. split; [done|]. intros v Hv. by apply made_grows, Hstored.
  - intros [Hall _]%Forall_app. destruct (Hbatch Hall) as [Hlt Hok].
    split; [done|]. apply Forall_app. split; [done|].
    apply Forall_cons. split; [|done]. simpl in *. lia.
Qed.

Lemma sent_inv_run w0 chunks :
  exists evs,
    sent_inv' w0 chunks
      (upsert_remaining env
         (index_chunks env metadata base_doc_id total 0 chunks
            {| world := w0; vectors_to_upsert := []; success := true |})) evs.
Proof.
  destruct (sent_inv_chunks w0 chunks [] _ [] (sent_inv_start w0)) as (evs1 & Hloop).
  destruct (sent_inv_flush _ _ _ _ Hloop) as (evs2 & Hfin).
  by exists (evs1 ++ evs2).
Qed.

End Sent.

Lemma index_file_reindexed env file_path force_update w :
  reindexed env w file_path force_update ->
  read_file_content env file_path <> [] ->
  index_file env file_path force_update w
  = if success (indexed_state env file_path w)
    then after_save
           (save_file_hashes env
              (<[file_path := get_file_hash env file_path]> (load_file_hashes w))
              (world (indexed_state env file_path w)))
    else (Returned false, world (indexed_state env file_path w)).
Proof.
  intros (Hfilter & Hread & Hstale) Hne.
  unfold index_file, indexed_state, file_chunks, file_prefix.
  rewrite Hfilter, Hread. cbn [negb].
  assert (negb force_update
          && bool_decide (load_file_hashes w !! file_path
                          = Some (get_file_hash env file_path)) = false) as ->.
  { destruct Hstale as [->|Hstale]; [done|].
    rewrite bool_decide_eq_false_2 by done. by destruct force_update. }
  destruct (read_file_content env file_path) as [|c content]; [done|]. done.
Qed.

Lemma lookup_insert_vectors_other vs (m : gmap string Vector) key :
  (forall v, v ∈ vs -> v_id v <> key) ->
  insert_vectors vs m !! key = m !! key.
Proof.
  revert m. induction vs as [|v vs IH]; intros m Hvs; [done|].
  change (insert_vectors (v :: vs) m) with (insert_vectors vs (<[v_id v := v]> m)).
  rewrite IH.
  - apply lookup_insert_ne, Hvs. left.
  - intros u Hu. apply Hvs. by right.
Qed.

Lemma lookup_insert_vectors_member vs (m : gmap string Vector) v :
  NoDup (map v_id vs) -> v ∈ vs -> insert_vectors vs m !! v_id v = Some v.
Proof.
  revert m. induction vs as [|u vs IH]; intros m Hnd Hv.
  { by apply elem_of_nil in Hv. }
  change (insert_vectors (u :: vs) m) with (insert_vectors vs (<[v_id u := u]> m)).
  simpl in Hnd. apply NoDup_cons in Hnd as [Hu Hnd].
  apply elem_of_cons in Hv as [->|Hv]; [|by apply IH].
  rewrite lookup_insert_vectors_other.
  - apply lookup_insert_eq.
  - intros x Hx Heq. apply Hu. rewrite <- Heq. apply list_elem_of_In, in_map.
    by apply list_elem_of_In.
Qed.

Lemma lookup_map_fst {A B} (l : list (A * B)) i a :
  map fst l !! i = Some a -> exists b, l !! i = Some (a, b).
Proof.
  revert i. induction l as [|[x y] l IH]; intros [|i]; simpl; try done.
  - intros [= ->]. by eexists.
  - apply IH.
Qed.

(** The calls of a run that gets past the filter and the hash check and
    finds content: the delete call, the calls of the loop and the final
    flush, and after full success the ledger write. *)
Lemma index_file_calls env file_path force_update w :
  reindexed env w file_path force_update ->
  read_file_content env file_path <> [] ->
  forall evs,
    calls (world (indexed_state env file_path w))
    = calls (delete_file_vectors env file_path w) ++ evs ->
    exists tail,
      calls (index_file env file_path force_update w).2
      = calls w
        ++ Delete (ids_to_delete file_path)
             (pinecone_delete env (calls w) (ids_to_delete file_path))
           :: evs ++ tail /\
      index (index_file env file_path force_update w).2
      = index (world (indexed_state env file_path w)) /\
      (tail = [] \/ exists hashes outcome, tail = [SaveHashes hashes outcome]).
Proof.
  intros Hre Hne evs Hcalls.
  rewrite (index_file_reindexed _ _ _ _ Hre Hne).
  rewrite delete_file_vectors_eq in Hcalls. cbn [index_delete calls] in Hcalls.
  destruct (success (indexed_state env file_path w)).
  - eexists. cbn [after_save save_file_hashes snd calls index].
    rewrite Hcalls, <- !app_assoc. split; [done|]. split; [done|]. right. by eexists _, _.
  - exists []. cbn [snd]. rewrite Hcalls, app_nil_r, <- !app_assoc. by auto.
Qed.

(** X8. Whatever fails on the way, every record [index_file] sends in an
    upsert request describes a chunk of the file at hand: it is the record
    of chunk [i] of the file's content, with the identifier
    [prefix-chunk-(i+1)], the file's metadata, the chunk's text and a
    non-empty embedding. *)
Theorem upserted_records_describe_chunks env w file_path force_update :
  exists evs,
    calls (index_file env file_path force_update w).2 = calls w ++ evs /\
    forall vectors ok v, Upsert vectors ok ∈ evs -> v ∈ vectors ->
      exists i chunk f values,
        file_chunks env file_path !! i = Some chunk /\
        v = vector_for (create_metadata env file_path) (file_prefix env file_path)
              (length (file_chunks env file_path)) i chunk (f :: values).
Proof.
  destruct (index_file env file_path force_update w) as [res w'] eqn:Heq.
  pose proof (index_file_outcome env file_path force_update w) as Hout.
  rewrite Heq in Hout. cbn [snd].
  inversion Hout as [| | | |st0 evs0 Hre Hne _ Hres]; subst; clear Hout.
  - exists []. rewrite app_nil_r. split; [done|]. by intros ??? ?%elem_of_nil.
  - exists []. rewrite app_nil_r. split; [done|]. by intros ??? ?%elem_of_nil.
  - exists []. rewrite app_nil_r. split; [done|]. by intros ??? ?%elem_of_nil.
  - exists [Delete (ids_to_delete file_path)
              (pinecone_delete env (calls w) (ids_to_delete file_path))].
    split; [done|]. by intros ??? [=]%list_elem_of_singleton.
  - clear Hres.
    destruct (sent_inv_run env (create_metadata env file_path) (file_prefix env file_path)
                (length (file_chunks env file_path))
                (delete_file_vectors env file_path w) (file_chunks env file_path))
      as (evs & [Hcalls Hin _ Hsent _ _]).
    fold (indexed_state env file_path w) in Hcalls.
    destruct (index_file_calls _ _ _ _ Hre Hne _ Hcalls) as (tail & Hall & _ & Htail).
    rewrite Heq in Hall. cbn [snd] in Hall.
    eexists. split; [exact Hall|].
    intros vectors ok v [[=]|Hup]%elem_of_cons Hv.
    apply elem_of_app in Hup as [Hup|Hup].
    2:{ destruct Htail as [->|(hashes & outcome & ->)].
        - by apply elem_of_nil in Hup.
        - by apply list_elem_of_singleton in Hup. }
    destruct (made_spec _ _ _ _ _ _ (Hsent _ _ _ Hup Hv))
      as (j & chunk & f & values & Hj & ->).
    exists j, chunk, f, values. split; [|done].
    rewrite <- Hin. clear -Hj. revert j Hj.
    induction (embeds evs) as [|[c r] l IH]; intros [|j]; simpl; try done.
    + by intros [= -> _].
    + apply IH.
Qed.

(** X9. In a run of [index_file] in which no upsert request fails, every
    upsert request carries at least 1 and at most 100 records. *)
Theorem upsert_batches_hold_at_most_100 env w file_path force_update :
  exists evs,
    calls (index_file env file_path force_update w).2 = calls w ++ evs /\
    (Forall (fun c => upsert_failed c = false) evs -> Forall batch_ok evs).
Proof.
  destruct (index_file env file_path force_update w) as [res w'] eqn:Heq.
  pose proof (index_file_outcome env file_path force_update w) as Hout.
  rewrite Heq in Hout. cbn [snd].
  inversion Hout as [| | | |st0 evs0 Hre Hne _ Hres]; subst; clear Hout.
  - exists []. rewrite app_nil_r. by split.
  - exists []. rewrite app_nil_r. by split.
  - exists []. rewrite app_nil_r. by split.
  - exists [Delete (ids_to_delete file_path)
              (pinecone_delete env (calls w) (ids_to_delete file_path))].
    split; [done|]. intros _. by repeat constructor.
  - clear Hres.
    destruct (sent_inv_run env (create_metadata env file_path) (file_prefix env file_path)
                (length (file_chunks env file_path))
                (delete_file_vectors env file_path w) (file_chunks env file_path))
      as (evs & [Hcalls _ _ _ _ Hbatch]).
    fold (indexed_state env file_path w) in Hcalls, Hbatch.
    destruct (index_file_calls _ _ _ _ Hre Hne _ Hcalls) as (tail & Hall & _ & Htail).
    rewrite Heq in Hall. cbn [snd] in Hall.
    eexists. split; [exact Hall|].
    intros Hgood. apply Forall_cons in Hgood as [_ Hgood].
    apply Forall_app in Hgood as [Hgood _]. destruct (Hbatch Hgood) as [_ Hok].
    apply Forall_cons. split; [done|]. apply Forall_app. split; [done|].
    destruct Htail as [->|(hashes & outcome & ->)]; [done|]. by apply Forall_singleton.
Qed.

(** X10. [index_file] changes the store only under the identifiers its
    delete request names and under identifiers [prefix-chunk-k] of the
    file's own prefix: what is stored under any other identifier is the
    same before and after, whatever the outcome. *)
Theorem other_identifiers_untouched env w file_path force_update id :
  id ∉ ids_to_delete file_path ->
  (forall k, id <> chunk_id (file_prefix env file_path) k) ->
  index (index_file env file_path force_update w).2 !! id = index w !! id.
Proof.
  intros Hdel Hown.
  assert (Hdeleted : index (delete_file_vectors env file_path w) !! id = index w !! id).
  { rewrite delete_file_vectors_eq. cbn [index_delete index].
    destruct (pinecone_delete env (calls w) (ids_to_delete file_path)); [|done].
    rewrite lookup_delete_all. by rewrite decide_False. }
  destruct (index_file env file_path force_update w) as [res w'] eqn:Heq.
  pose proof (index_file_outcome env file_path force_update w) as Hout.
  rewrite Heq in Hout. cbn [snd].
  inversion Hout as [| | | |st0 evs0 Hre Hne _ Hres]; subst; clear Hout; try done.
  clear Hres.
  destruct (sent_inv_run env (create_metadata env file_path) (file_prefix env file_path)
              (length (file_chunks env file_path))
              (delete_file_vectors env file_path w) (file_chunks env file_path))
    as (evs & [Hcalls _ _ _ (stored & Hidx & Hstored) _]).
  fold (indexed_state env file_path w) in Hcalls, Hidx.
  destruct (index_file_calls _ _ _ _ Hre Hne _ Hcalls) as (tail & _ & Hindex & _).
  rewrite Heq in Hindex. cbn [snd] in Hindex.
  rewrite Hindex, Hidx, lookup_insert_vectors_other; [done|].
  intros v Hv Hid. destruct (made_spec _ _ _ _ _ _ (Hstored v Hv))
    as (j & chunk & f & values & _ & ->).
  by apply (Hown (0 + j + 1)%nat).
Qed.

(** X11. After a call of [index_file] that got past the filter and the hash
    check and answered [True], the store holds, for every chunk [i] of the
    file's content, under [prefix-chunk-(i+1)] the record of that chunk:
    its text, its number, the number of chunks and the file's metadata. *)
Theorem store_holds_each_chunk env w file_path force_update w' :
  reindexed env w file_path force_update ->
  index_file env file_path force_update w = (Returned true, w') ->
  forall i chunk,
    file_chunks env file_path !! i = Some chunk ->
    exists f values,
      index w' !! chunk_id (file_prefix env file_path) (i + 1)
      = Some (vector_for (create_metadata env file_path) (file_prefix env file_path)
                (length (file_chunks env file_path)) i chunk (f :: values)).
Proof.
  intros Hre Heq i chunk Hi.
  pose proof (index_file_outcome env file_path force_update w) as Hout.
  rewrite Heq in Hout.
  inversion Hout as [| |_ _ Hforce Hsame| |st evs _ _ Hfin Hres]; subst.
  { destruct Hre as (_ & _ & [?|?]); [congruence|done]. }
  destruct Hfin as [_ _ _ Hin Hok _ Hidx].
  destruct (success st); [|done].
  apply after_save_spec in Hres as (_ & _ & Hindex' & _).
  destruct (Hidx eq_refl) as [Hmade Hindex].
  pose proof (failed_embeds _ (proj1 Hok eq_refl)) as Husable.
  destruct (embeds_lookup_inputs _ _ _ _ Hin Hi) as (reply & Hreply).
  pose proof Husable as Hall. rewrite Forall_forall in Hall.
  specialize (Hall _ (list_elem_of_lookup_2 _ _ _ Hreply)).
  destruct reply as [[|f values]|]; [done| |done].
  exists f, values. rewrite Hindex', Hindex, <- Hmade.
  apply (lookup_insert_vectors_member _ _
           (vector_for (create_metadata env file_path) (file_prefix env file_path)
              (length (file_chunks env file_path)) i chunk (f :: values))).
  - unfold file_prefix. rewrite (made_ids _ _ _ 0 _ Husable).
    apply NoDup_fmap_2_strong; [|apply NoDup_seq].
    intros k1 k2 _ _. apply chunk_id_inj.
  - apply (made_elem _ _ _ 0 _ _ _ _ _ Hreply).
Qed.

Lemma index_file_unchanged env w file_path :
  should_index_file file_path = true ->
  readable env file_path = true ->
  load_file_hashes w !! file_path = Some (get_file_hash env file_path) ->
  index_file env file_path false w = (Returned true, w).
Proof.
  intros Hfilter Hread Hsame. unfold index_file. rewrite Hfilter, Hread. simpl.
  by rewrite bool_decide_eq_true_2.
Qed.

(** What a call of [index_file] does to the ledger file: nothing, unless it
    ends with a ledger write, and then what the outcome of the write says.
    Without a write the answer is [True] only for an unchanged file. *)
Lemma index_file_ledger env w file_path force_update :
  exists evs,
    calls (index_file env file_path force_update w).2 = calls w ++ evs /\
    ((forall hashes outcome, SaveHashes hashes outcome ∉ evs) /\
     hash_file (index_file env file_path force_update w).2 = hash_file w /\
     ((index_file env file_path force_update w).1 = Returned true ->
      (index_file env file_path force_update w).2 = w /\
      should_index_file file_path = true /\ readable env file_path = true /\
      load_file_hashes w !! file_path = Some (get_file_hash env file_path)) \/
     exists front outcome,
       evs = front
             ++ [SaveHashes
                   (<[file_path := get_file_hash env file_path]> (load_file_hashes w))
                   outcome] /\
       (forall hashes outcome', SaveHashes hashes outcome' ∉ front) /\
       should_index_file file_path = true /\ readable env file_path = true /\
       (index_file env file_path force_update w).1
       = match outcome with
         | DirFailed => Raised
         | Saved | OpenFailed | DumpFailed => Returned true
         end /\
       hash_file (index_file env file_path force_update w).2
       = match outcome with
         | Saved =>
             Some (<[file_path := get_file_hash env file_path]> (load_file_hashes w))
         | DumpFailed => None
         | OpenFailed | DirFailed => hash_file w
         end).
Proof.
  destruct (index_file env file_path force_update w) as [res w'] eqn:Heq.
  pose proof (index_file_outcome env file_path force_update w) as Hout.
  rewrite Heq in Hout. cbn [fst snd].
  inversion Hout as [| |Hfilter Hread _ Hsame| |st evs Hre _ Hfin Hres]; subst; clear Hout.
  - exists []. rewrite app_nil_r. split; [done|]. left.
    split; [by intros ?? ?%elem_of_nil|]. by split.
  - exists []. rewrite app_nil_r. split; [done|]. left.
    split; [by intros ?? ?%elem_of_nil|]. by split.
  - exists []. rewrite app_nil_r. split; [done|]. left.
    split; [by intros ?? ?%elem_of_nil|]. by split.
  - exists [Delete (ids_to_delete file_path)
              (pinecone_delete env (calls w) (ids_to_delete file_path))].
    split; [done|]. left. split; [by intros ?? [=]%list_elem_of_singleton|]. by split.
  - destruct Hfin as [Hcalls Hhash Hkinds _ _ _ _].
    rewrite delete_file_vectors_eq in Hcalls, Hhash. simpl in Hcalls, Hhash.
    set (del := Delete (ids_to_delete file_path)
                  (pinecone_delete env (calls w) (ids_to_delete file_path))) in *.
    assert (Hnosave : forall hashes outcome, SaveHashes hashes outcome ∉ del :: evs).
    { intros hashes outcome [[=]|Hsave]%elem_of_cons.
      rewrite Forall_forall in Hkinds. by destruct (Hkinds _ Hsave). }
    destruct (success st).
    + apply after_save_spec in Hres as (-> & Hcalls' & _ & Hhash').
      rewrite Hhash in Hhash'.
      set (new := <[file_path := get_file_hash env file_path]> (load_file_hashes w)) in *.
      exists (del :: evs ++ [SaveHashes new (ledger_write env (calls (world st)) new)]).
      split; [by rewrite Hcalls', Hcalls, <- !app_assoc|].
      right. exists (del :: evs), (ledger_write env (calls (world st)) new).
      destruct Hre as (? & ? & _). done.
    + injection Hres as <- <-. exists (del :: evs).
      split; [by rewrite Hcalls, <- !app_assoc|]. left. by split.
Qed.

(** X12. [index_file] leaves the ledger entries of other paths alone, with
    one exception: when its ledger write fails after [open] has emptied the
    file, the ledger no longer parses and every entry is lost.  In every
    other run the digest recorded for any [other] path is the same before
    and after. *)
Theorem other_ledger_entries_kept env w file_path force_update other :
  other <> file_path ->
  exists evs,
    calls (index_file env file_path force_update w).2 = calls w ++ evs /\
    (Forall (fun c => torn_write c = false) evs ->
     load_file_hashes (index_file env file_path force_update w).2 !! other
     = load_file_hashes w !! other) /\
    ((exists c, c ∈ evs /\ torn_write c = true) ->
     load_file_hashes (index_file env file_path force_update w).2 = ∅).
Proof.
  intros Hne.
  destruct (index_file_ledger env w file_path force_update) as (evs & Hcalls & Hledger).
  exists evs. split; [done|].
  destruct Hledger
    as [(Hnone & Hhash & _)|(front & outcome & -> & Hfront & _ & _ & _ & Hhash)].
  - split.
    + intros _. unfold load_file_hashes. by rewrite Hhash.
    + intros (c & Hin & Htorn). destruct c as [| | |hashes outcome]; try done.
      by destruct (Hnone hashes outcome).
  - split.
    + intros [_ Hlast]%Forall_app. rewrite Forall_singleton in Hlast.
      unfold load_file_hashes at 1. rewrite Hhash.
      destruct outcome; simpl in Hlast; [|done..].
      cbn [from_option id]. by rewrite lookup_insert_ne.
    + intros (c & [Hin|Hin]%elem_of_app & Htorn).
      * destruct c as [| | |hashes outcome']; try done.
        by destruct (Hfront hashes outcome').
      * apply list_elem_of_singleton in Hin as ->.
        unfold load_file_hashes. rewrite Hhash. by destruct outcome.
Qed.

(** X13. Once [index_file] has answered [True] for a file, and unless the
    ledger write of that call failed, a following non-forced call for the
    same, unchanged file answers [True] again and does nothing: no request
    is made and the store and the ledger stay as they are. *)
Theorem indexed_file_is_skipped_next env w file_path force_update w' :
  index_file env file_path force_update w = (Returned true, w') ->
  exists evs,
    calls w' = calls w ++ evs /\
    (Forall (fun c => write_failed c = false) evs ->
     index_file env file_path false w' = (Returned true, w')).
Proof.
  intros Heq.
  destruct (index_file_ledger env w file_path force_update) as (evs & Hcalls & Hledger).
  rewrite Heq in Hcalls, Hledger. cbn [fst snd] in Hcalls, Hledger.
  exists evs. split; [done|]. intros Hsaved.
  destruct Hledger
    as [(_ & _ & Hskip)|(front & outcome & -> & _ & Hfilter & Hread & _ & Hhash)].
  - destruct (Hskip eq_refl) as (-> & ? & ? & ?). by apply index_file_unchanged.
  - apply Forall_app in Hsaved as [_ Hlast]. rewrite Forall_singleton in Hlast.
    destruct outcome; simpl in Hlast; try done.
    apply index_file_unchanged; [done..|].
    unfold load_file_hashes at 1. rewrite Hhash. apply lookup_insert_eq.
Qed.

(** X14. In forced mode, the mode of [index_changed_files], a file that
    passes the filter and can be opened is never skipped: the first request
    [index_file] makes is the delete request for the file's identifiers,
    whatever the ledger says. *)
Theorem forced_file_is_always_deleted_first env w file_path :
  should_index_file file_path = true ->
  readable env file_path = true ->
  exists evs,
    calls (index_file env file_path true w).2
    = calls w ++ Delete (ids_to_delete file_path)
                   (pinecone_delete env (calls w) (ids_to_delete file_path)) :: evs.
Proof.
  intros Hfilter Hread.
  destruct (index_file env file_path true w) as [res w'] eqn:Heq.
  pose proof (index_file_outcome env file_path true w) as Hout.
  rewrite Heq in Hout. cbn [snd].
  inversion Hout as [| | | |st evs _ _ Hfin Hres]; subst; try congruence.
  - by exists [].
  - destruct Hfin as [Hcalls _ _ _ _ _ _].
    rewrite delete_file_vectors_eq in Hcalls. cbn [index_delete calls] in Hcalls.
    destruct (success st).
    + apply after_save_spec in Hres as (_ & Hcalls' & _).
      eexists. rewrite Hcalls', Hcalls, <- !app_assoc. done.
    + injection Hres as <- <-. eexists. rewrite Hcalls, <- !app_assoc. done.
Qed.




Lemma status_line_path_filter repo line p :
  status_line_path repo line = Some p -> should_index_file p = true.
Proof.
  unfold status_line_path. cbv zeta.
  destruct (3 <? String.length line)%nat; [|done].
  destruct (negb _ && negb _); [|done].
  destruct (String.prefix _ _); [|done].
  destruct (should_index_file _) eqn:Hfilter; [|done].
  destruct (path_exists _ _); [|done]. by intros [= <-].
Qed.

Lemma diff_line_path_filter repo line p :
  diff_line_path repo line = Some p -> should_index_file p = true.
Proof.
  unfold diff_line_path. cbv zeta.
  destruct (String.prefix _ _); [|done].
  destruct (should_index_file _) eqn:Hfilter; [|done].
  destruct (path_exists _ _); [|done]. by intros [= <-].
Qed.

Lemma omap_Forall {A B} (f : A -> option B) (P : B -> Prop) (l : list A) :
  (forall a b, f a = Some b -> P b) -> Forall P (omap f l).
Proof.
  intros Hf. induction l as [|a l IH]; simpl; [done|].
  destruct (f a) as [b|] eqn:Hb; [|done]. constructor; [by eapply Hf|done].
Qed.

(** X16. Whichever of its three stages finds them - uncommitted changes,
    the last commit, or modification times - every path
    [get_changed_files] returns passes [should_index_file]. *)
Theorem changed_files_pass_filter repo :
  Forall (fun file_path => should_index_file file_path = true) (get_changed_files repo).
Proof.
  unfold get_changed_files.
  destruct (git_status repo) as [lines|]; [|done].
  pose proof (omap_Forall (status_line_path repo) _ lines
                (status_line_path_filter repo)) as Hstatus.
  destruct (omap (status_line_path repo) lines); [|exact Hstatus].
  destruct (git_diff repo) as [lines'|]; [|done].
  pose proof (omap_Forall (diff_line_path repo) _ lines'
                (diff_line_path_filter repo)) as Hdiff.
  destruct (omap (diff_line_path repo) lines'); [|exact Hdiff].
  apply Forall_forall. intros p Hp%list_elem_of_In%filter_In.
  destruct Hp as [_ Hp]. by apply andb_prop in Hp as [? _].
Qed.

(** ** Worked instances *)

Lemma get_relative_path_inside_witness :
  (String.prefix "/" "docs/notes.md" = false /\
   contains DIRECTORY_TO_INDEX ("/" +:+ "docs/notes.md") = false) /\
  get_relative_path (DIRECTORY_TO_INDEX +:+ "/" +:+ "docs/notes.md") = "docs/notes.md"%string.
Proof.
  split; [split; reflexivity|].
  apply (get_relative_path_inside "docs/notes.md"); reflexivity.
Defined.

Lemma indexed_file_has_known_type_witness :
  should_index_file notes_md = true /\
  md_file_type (create_metadata (sample_env (letters 3)) notes_md) ∈ KNOWN_TYPES.
Proof.
  split; [reflexivity|].
  apply (indexed_file_has_known_type (sample_env (letters 3)) notes_md). reflexivity.
Defined.

Lemma delete_type_agrees_or_unknown_witness :
  should_index_file foo_ts = true /\
  delete_file_type foo_ts
  = if bool_decide (md_file_type (create_metadata (sample_env (letters 3)) foo_ts)
                    ∈ STORED_ONLY_TYPES)
    then "unknown"%string
    else md_file_type (create_metadata (sample_env (letters 3)) foo_ts).
Proof.
  split; [reflexivity|].
  apply (delete_type_agrees_or_unknown (sample_env (letters 3)) foo_ts). reflexivity.
Defined.

Lemma other_identifiers_untouched_witness :
  (("x"%string ∉ ids_to_delete notes_md) /\
   forall k, "x"%string <> chunk_id (file_prefix (sample_env (letters 3)) notes_md) k) /\
  index (index_file (sample_env (letters 3)) notes_md true after_two_chunks).2 !! "x"%string
  = index after_two_chunks !! "x"%string.
Proof.
  assert ("x"%string ∉ ids_to_delete notes_md) as Hdel.
  { apply (bool_decide_unpack _). vm_compute. exact I. }
  assert (forall k, "x"%string
                    <> chunk_id (file_prefix (sample_env (letters 3)) notes_md) k) as Hown.
  { intros k H.
    change (file_prefix (sample_env (letters 3)) notes_md) with notes_prefix in H.
    unfold chunk_id, notes_prefix in H. rewrite string_app_cons in H. discriminate H. }
  split; [split; [exact Hdel|exact Hown]|].
  apply (other_identifiers_untouched (sample_env (letters 3)) after_two_chunks notes_md
           true "x"%string Hdel Hown).
Defined.

Lemma store_holds_each_chunk_witness :
  (reindexed (sample_env (letters 3)) empty_world notes_md true /\
   index_file (sample_env (letters 3)) notes_md true empty_world
   = (Returned true, after_three_letters)) /\
  forall i chunk,
    file_chunks (sample_env (letters 3)) notes_md !! i = Some chunk ->
    exists f values,
      index after_three_letters
        !! chunk_id (file_prefix (sample_env (letters 3)) notes_md) (i + 1)
      = Some (vector_for (create_metadata (sample_env (letters 3)) notes_md)
                (file_prefix (sample_env (letters 3)) notes_md)
                (length (file_chunks (sample_env (letters 3)) notes_md)) i chunk
                (f :: values)).
Proof.
  assert (reindexed (sample_env (letters 3)) empty_world notes_md true) as Hre.
  { split; [reflexivity|]. split; [reflexivity|]. left. reflexivity. }
  assert (index_file (sample_env (letters 3)) notes_md true empty_world
          = (Returned true, after_three_letters)) as Hrun.
  { vm_compute. reflexivity. }
  split; [split; [exact Hre|exact Hrun]|].
  apply (store_holds_each_chunk (sample_env (letters 3)) empty_world notes_md true
           after_three_letters Hre Hrun).
Defined.

Lemma none_by_forallb (f : Call -> bool) (evs : list Call) :
  forallb (fun c => negb (f c)) evs = true -> Forall (fun c => f c = false) evs.
Proof.
  induction evs as [|c evs IH]; simpl; [done|].
  intros [Hc Hevs]%andb_prop. constructor; [by destruct (f c)|by apply IH].
Qed.

Lemma some_by_existsb (f : Call -> bool) (evs : list Call) :
  existsb f evs = true -> exists c, c ∈ evs /\ f c = true.
Proof.
  induction evs as [|c evs IH]; simpl; [done|].
  intros [Hc|Hevs]%orb_prop.
  - exists c. split; [left|done].
  - destruct (IH Hevs) as (c' & ? & ?). exists c'. split; [by right|done].
Qed.

(** [foo.ts] is in the ledger and [notes.md] is indexed: the entry of
    [foo.ts] is kept when the ledger is written, and lost when the write
    fails after the file was opened. *)
Lemma other_ledger_entries_kept_witness :
  foo_ts <> notes_md /\
  is_Some (load_file_hashes foo_in_ledger !! foo_ts) /\
  load_file_hashes
    (index_file (sample_env (letters 3)) notes_md true foo_in_ledger).2 !! foo_ts
  = load_file_hashes foo_in_ledger !! foo_ts /\
  load_file_hashes (index_file (torn_env (letters 3)) notes_md true foo_in_ledger).2 = ∅.
Proof.
  assert (foo_ts <> notes_md) as Hne.
  { vm_compute. intros H. discriminate H. }
  split; [exact Hne|]. split; [vm_compute; eexists; reflexivity|]. split.
  - destruct (other_ledger_entries_kept (sample_env (letters 3)) foo_in_ledger
                notes_md true foo_ts Hne) as (evs & Hcalls & Hkept & _).
    apply Hkept, none_by_forallb.
    change (calls foo_in_ledger ++ evs) with evs in Hcalls. rewrite <- Hcalls.
    vm_compute. reflexivity.
  - destruct (other_ledger_entries_kept (torn_env (letters 3)) foo_in_ledger
                notes_md true foo_ts Hne) as (evs & Hcalls & _ & Hlost).
    apply Hlost, some_by_existsb.
    change (calls foo_in_ledger ++ evs) with evs in Hcalls. rewrite <- Hcalls.
    vm_compute. reflexivity.
Defined.

Lemma indexed_file_is_skipped_next_witness :
  index_file (sample_env (letters 3)) notes_md true empty_world
  = (Returned true, after_three_letters) /\
  index_file (sample_env (letters 3)) notes_md false after_three_letters
  = (Returned true, after_three_letters).
Proof.
  assert (index_file (sample_env (letters 3)) notes_md true empty_world
          = (Returned true, after_three_letters)) as Hrun.
  { vm_compute. reflexivity. }
  split; [exact Hrun|].
  destruct (indexed_file_is_skipped_next (sample_env (letters 3)) empty_world notes_md
              true after_three_letters Hrun) as (evs & Hcalls & Hskip).
  apply Hskip, none_by_forallb.
  change (calls empty_world ++ evs) with evs in Hcalls. rewrite <- Hcalls.
  vm_compute. reflexivity.
Defined.

Lemma forced_file_is_always_deleted_first_witness :
  (should_index_file notes_md = true /\
   readable (sample_env (letters 3)) notes_md = true) /\
  exists evs,
    calls (index_file (sample_env (letters 3)) notes_md true after_two_chunks).2
    = calls after_two_chunks
      ++ Delete (ids_to_delete notes_md)
           (pinecone_delete (sample_env (letters 3)) (calls after_two_chunks)
              (ids_to_delete notes_md)) :: evs.
Proof.
  split; [split; reflexivity|].
  apply (forced_file_is_always_deleted_first (sample_env (letters 3)) after_two_chunks
           notes_md); reflexivity.
Defined.

